(** * rayts: a shallow embedding of [draw.ts] and [cast.ts]

    The development follows the two TypeScript modules of the repository:

    - the drawing module (colors, [pixel], [column], [line] and the
      Bresenham rasterizer), and
    - the ray caster ([render] and [cast]).

    JavaScript numbers are IEEE-754 binary64 values.  They are modelled by
    the Standard Library's [spec_float] at precision 53 and exponent bound
    1024, so that infinities, NaN, signed zeros and rounding behave as they
    do in the program.  Values that the program keeps integral (loop
    counters, pixel coordinates after [| 0], Bresenham's error term) are
    carried as [Z]: they stay far below [2^53], where binary64 arithmetic on
    integers is exact.  [Math.sin], [Math.cos] and [Math.tan] are
    implementation-approximated by the language standard and are taken as
    parameters. *)

From Stdlib Require Import ZArith List Bool Lia String Ascii.
From Stdlib Require Import Floats.SpecFloat.
Import ListNotations.

Local Open Scope Z_scope.

(** ** JavaScript numbers *)

Module Num.

Definition number : Type := spec_float.

Definition prec : Z := 53.
Definition emax : Z := 1024.

Definition add : number -> number -> number := SFadd prec emax.
Definition sub : number -> number -> number := SFsub prec emax.
Definition mul : number -> number -> number := SFmul prec emax.
Definition div : number -> number -> number := SFdiv prec emax.

(** The double nearest to an integer (exact below [2^53]). *)
Definition of_Z (z : Z) : number := binary_normalize prec emax z 0 false.

Definition Infinity : number := S754_infinity false.
Definition NaN : number := S754_nan.
Definition pzero : number := S754_zero false.

(** [x < y], [x > y], [x === y] and [x !== y] on numbers. *)
Definition lt (x y : number) : bool := SFltb x y.
Definition gt (x y : number) : bool := SFltb y x.
Definition strict_eq (x y : number) : bool := SFeqb x y.
Definition strict_neq (x y : number) : bool := negb (SFeqb x y).

(** Reduction of an integer to the signed 32-bit range. *)
Definition wrap32 (z : Z) : Z := (z + 2 ^ 31) mod 2 ^ 32 - 2 ^ 31.

(** The integer part of a finite double, rounded towards zero for
    [trunc] and towards minus infinity for [floorZ].  [Z.shiftl] with a
    negative amount shifts right, which on [Z] is the floor division. *)
Definition trunc (s : bool) (m : positive) (e : Z) : Z :=
  cond_Zopp s (Z.shiftl (Zpos m) e).

Definition floorZ (s : bool) (m : positive) (e : Z) : Z :=
  Z.shiftl (cond_Zopp s (Zpos m)) e.

(** The abstract operation ToInt32 of the language, which [x | 0],
    [x & y] and [x >> y] apply to their operands. *)
Definition ToInt32 (x : number) : Z :=
  match x with
  | S754_finite s m e => wrap32 (trunc s m e)
  | _ => 0
  end.

(** [Math.floor]. *)
Definition Math_floor (x : number) : number :=
  match x with
  | S754_finite s m e =>
      if 0 <=? e then x
      else match floorZ s m e with
           | 0 => S754_zero s
           | q => of_Z q
           end
  | _ => x
  end.

End Num.

Export Num.

Declare Scope num_scope.
Delimit Scope num_scope with num.
Infix "+" := Num.add : num_scope.
Infix "-" := Num.sub : num_scope.
Infix "*" := Num.mul : num_scope.
Infix "/" := Num.div : num_scope.

(** ** Regular expressions

    The fragment of the regular-expression language that [colorHex]
    uses: pattern characters, character classes given by ranges, fixed
    repetition, sequencing and capturing groups.  Every pattern of the
    fragment consumes a determined number of characters, so matching needs
    no backtracking.  Strings are sequences of 8-bit characters; the
    patterns below only ever accept ASCII. *)

Module RegExp.

Inductive regex : Type :=
| Chr (c : ascii)
| Class (ranges : list (ascii * ascii))
| Seq (r1 r2 : regex)
| Repeat (n : nat) (r : regex)
| Group (r : regex).

(** Canonicalize of the [i] flag: the simple upper-case mapping. *)
Definition upper (c : ascii) : ascii :=
  if (("a" <=? c) && (c <=? "z"))%char
  then ascii_of_nat (nat_of_ascii c - 32) else c.

Definition canonicalize (ignoreCase : bool) (c : ascii) : ascii :=
  if ignoreCase then upper c else c.

Definition range_members (r : ascii * ascii) : list ascii :=
  let lo := nat_of_ascii (fst r) in
  let hi := nat_of_ascii (snd r) in
  map ascii_of_nat (seq lo (S hi - lo)).

(** A character is in a class when some member of the class has the same
    canonical form. *)
Definition class_matches (i : bool) (ranges : list (ascii * ascii))
  (c : ascii) : bool :=
  existsb
    (fun r => existsb (fun a => (canonicalize i a =? canonicalize i c)%char)
                (range_members r))
    ranges.

(** The result of running a pattern at the head of a string: the text
    consumed, the captures in order of their opening parenthesis, and the
    rest of the input. *)
Definition result : Type := (string * list string * string)%type.

Fixpoint repeat_run (step : string -> option result) (n : nat) (s : string)
  : option result :=
  match n with
  | O => Some (EmptyString, [], s)
  | S k =>
      match step s with
      | None => None
      | Some (c1, k1, rest1) =>
          match repeat_run step k rest1 with
          | None => None
          | Some (c2, k2, rest2) =>
              Some ((c1 ++ c2)%string, (k1 ++ k2)%list, rest2)
          end
      end
  end.

Fixpoint run (i : bool) (r : regex) (s : string) : option result :=
  match r with
  | Chr c =>
      match s with
      | String d t =>
          if (canonicalize i c =? canonicalize i d)%char
          then Some (String d EmptyString, [], t) else None
      | EmptyString => None
      end
  | Class ranges =>
      match s with
      | String d t =>
          if class_matches i ranges d
          then Some (String d EmptyString, [], t) else None
      | EmptyString => None
      end
  | Seq r1 r2 =>
      match run i r1 s with
      | None => None
      | Some (c1, k1, rest1) =>
          match run i r2 rest1 with
          | None => None
          | Some (c2, k2, rest2) =>
              Some ((c1 ++ c2)%string, (k1 ++ k2)%list, rest2)
          end
      end
  | Repeat n r' => repeat_run (run i r') n s
  | Group r' =>
      match run i r' s with
      | None => None
      | Some (c, k, rest) => Some (c, c :: k, rest)
      end
  end.

(** [s.match(/^r$/)] and [s.match(/^r$/i)]: the array of the whole match
    followed by the captures, or [None] for [null]. *)
Definition match_anchored (i : bool) (r : regex) (s : string)
  : option (list string) :=
  match run i r s with
  | Some (c, k, EmptyString) => Some (c :: k)
  | _ => None
  end.

End RegExp.

(** ** Colors *)

(** Red, green, blue and alpha channels. *)
Definition Color : Type := (Z * Z * Z * Z)%type.

Definition channel (k : nat) (c : Color) : Z :=
  let '(r, g, b, a) := c in
  match k with
  | O => r
  | 1%nat => g
  | 2%nat => b
  | _ => a
  end.

(** [x & y] on numbers. *)
Definition bit_and (x y : number) : Z := Z.land (ToInt32 x) (ToInt32 y).

(** An optional argument with its default value. *)
Definition or_default {A : Type} (d : A) (o : option A) : A :=
  match o with
  | Some x => x
  | None => d
  end.

Definition colorRGBA (r g b : number) (a : option number) : Color :=
  let a := or_default (of_Z 255) a in
  (bit_and r (of_Z 255), bit_and g (of_Z 255),
   bit_and b (of_Z 255), bit_and a (of_Z 255)).

Definition ColorBlack : Color :=
  colorRGBA (of_Z 0) (of_Z 0) (of_Z 0) None.

Definition ColorDefault : Color := ColorBlack.

(** The value of a hexadecimal digit. *)
Definition hex_digit_value (c : ascii) : option Z :=
  let n := Z.of_nat (nat_of_ascii c) in
  if (48 <=? n) && (n <=? 57) then Some (n - 48)
  else if (97 <=? n) && (n <=? 102) then Some (n - 87)
  else if (65 <=? n) && (n <=? 70) then Some (n - 55)
  else None.

(** [parseInt(s, 16)] on a string without leading white space, sign or
    [0x] prefix: the value of the longest prefix of digits, NaN when that
    prefix is empty. *)
Fixpoint parse_hex_digits (acc : option Z) (s : string) : option Z :=
  match s with
  | EmptyString => acc
  | String c t =>
      match hex_digit_value c with
      | Some d => parse_hex_digits (Some (16 * or_default 0 acc + d)) t
      | None => acc
      end
  end.

Definition parseInt16 (s : string) : number :=
  match parse_hex_digits None s with
  | Some v => of_Z v
  | None => NaN
  end.

(** The pattern [#([0-9a-f]{6})]. *)
Definition hex_pattern : RegExp.regex :=
  RegExp.Seq (RegExp.Chr "#")
    (RegExp.Group
       (RegExp.Repeat 6 (RegExp.Class [("0", "9"); ("a", "f")]%char))).

(** The exception thrown by [colorHex]. *)
Definition invalid_hex : string := "invalid hex value".

(** [x >> n] for an int32 [x] and a shift count below 32. *)
Definition sar (x n : Z) : Z := Z.shiftr x n.

Definition colorHex (hex : string) (a : option number) : string + Color :=
  let a := or_default (of_Z 255) a in
  match RegExp.match_anchored true hex_pattern hex with
  | None => inl invalid_hex
  | Some m =>
      let rgb := parseInt16 (nth 1 m EmptyString) in
      inr (colorRGBA
             (of_Z (sar (bit_and rgb (of_Z 16711680)) 16))
             (of_Z (sar (bit_and rgb (of_Z 65280)) 8))
             (of_Z (bit_and rgb (of_Z 255)))
             (Some a))
  end.

(** The format [#rrggbb], read off its description: a hash sign followed
    by exactly six hexadecimal digits of either case. *)
Definition is_hex_digit (c : ascii) : bool :=
  ((("0" <=? c) && (c <=? "9")) || (("a" <=? c) && (c <=? "f")) ||
   (("A" <=? c) && (c <=? "F")))%char.

Definition matches_rrggbb (s : string) : bool :=
  match s with
  | String h (String r1 (String r2 (String g1 (String g2
      (String b1 (String b2 EmptyString)))))) =>
      (h =? "#")%char && forallb is_hex_digit [r1; r2; g1; g2; b1; b2]
  | _ => false
  end.

(** A color whose four channels are integers between 0 and 255. *)
Definition valid_color (c : Color) : Prop :=
  forall k, 0 <= channel k c <= 255.

(** ** Framebuffers *)

(** Screen-space points. *)
Definition Point : Type := (number * number)%type.

(** An [ImageData]: its dimensions and its [Uint8ClampedArray] of
    [4 * width * height] channel values. *)
Record ImageData : Type := mkImageData
  { width : Z;
    height : Z;
    data : list Z }.

(** Conversion of a stored value by a [Uint8ClampedArray]. *)
Definition Uint8Clamp (v : Z) : Z := Z.max 0 (Z.min 255 v).

Fixpoint list_set (l : list Z) (n : nat) (v : Z) : list Z :=
  match l, n with
  | [], _ => []
  | _ :: t, O => v :: t
  | h :: t, S k => h :: list_set t k v
  end.

(** [array[i] = v] on a typed array: a store outside the array does
    nothing. *)
Definition array_store (d : list Z) (i v : Z) : list Z :=
  if i <? 0 then d else list_set d (Z.to_nat i) (Uint8Clamp v).

Definition set_data (fbuf : ImageData) (d : list Z) : ImageData :=
  mkImageData (width fbuf) (height fbuf) d.

(** [pixel].  The offset is an integer expression over int32 values and the
    width; it is computed exactly whenever it can fall inside the array. *)
Definition pixel (fbuf : ImageData) (p : Point) (color : option Color)
  : ImageData :=
  let color := or_default ColorDefault color in
  let offset := 4 * (ToInt32 (fst p) + width fbuf * ToInt32 (snd p)) in
  let d := array_store (data fbuf) (offset + 0) (channel 0 color) in
  let d := array_store d (offset + 1) (channel 1 color) in
  let d := array_store d (offset + 2) (channel 2 color) in
  let d := array_store d (offset + 3) (channel 3 color) in
  set_data fbuf d.

(** Appending a plotted point to a log of points. *)
Definition log_point (p : Point) (log : list Point) : list Point :=
  log ++ [p].

(** [column], written over the effect of plotting a point.  [h] is the
    height of the framebuffer. *)

Section Column.

Context {S : Type}.
Variable plot : Point -> S -> S.

(** The loop of [column]: [i] counts the pixels drawn, [y] is the row of
    the next one.  The loop ends when [i < height] fails. *)
Fixpoint column_loop (fuel : nat) (x : number) (height_ : number)
  (i y : Z) (s : S) : S :=
  match fuel with
  | O => s
  | Datatypes.S k =>
      if Num.lt (of_Z i) height_
      then column_loop k x height_ (i + 1) (y + 1) (plot (x, of_Z y) s)
      else s
  end.

(** The height after the clamp of [column]. *)
Definition clamp_height (h : Z) (height_ : number) : number :=
  if Num.gt height_ (of_Z h) then of_Z h else height_.

(** After the clamp, [i < height] fails at the latest when [i] reaches the
    height of the framebuffer, which bounds the number of iterations (see
    [column_loop_fuel]). *)
Definition column_run (h : Z) (x : number) (height_ : number) (s : S) : S :=
  let height_ := clamp_height h height_ in
  let y := sar (ToInt32 (of_Z h - height_)%num) 1 in
  column_loop (Z.to_nat h) x height_ 0 y s.

End Column.

(** [column] on a framebuffer. *)
Definition column (fbuf : ImageData) (x : number) (height_ : number)
  (color : option Color) : ImageData :=
  column_run (fun p f => pixel f p color) (height fbuf) x height_ fbuf.

(** The points that [column] plots, in the order of plotting. *)
Definition column_points (h : Z) (x : number) (height_ : number)
  : list Point :=
  column_run log_point h x height_ [].

(** ** Bresenham's line algorithm

    The algorithm is written once over the effect of plotting a point, so
    that it can be run on a framebuffer and on a log of the points
    plotted. *)

Section Bresenham.

Context {S : Type}.
Variable plot : Point -> S -> S.

Definition int_point (p : Z * Z) : Point := (of_Z (fst p), of_Z (snd p)).

(** The loop [while (du--)]: [major] tells whether the first axis is the
    major one ([dx > dy]). *)
Fixpoint bresenham_loop (fuel : nat) (major : bool) (du u v e su sv : Z)
  (dv2mdu2 dv2 : Z) (s : S) : S :=
  match fuel with
  | O => s
  | Datatypes.S k =>
      if du =? 0 then s
      else
        let '(v, e) := if e >=? 0 then (v + sv, e + dv2mdu2)
                       else (v, e + dv2) in
        let u := u + su in
        let s := if major then plot (int_point (u, v)) s
                 else plot (int_point (v, u)) s in
        bresenham_loop k major (du - 1) u v e su sv dv2mdu2 dv2 s
  end.

(** The constants and the initial values of the loop, for the endpoints
    [a] and [b]: the first endpoint after the swap, whether the first axis
    is the major one, and [du], [u], [v], [e], [su], [sv], [dv2mdu2] and
    [dv2]. *)
Definition bresenham_setup (a b : Point)
  : (Z * Z) * (bool * Z * Z * Z * Z * Z * Z * Z * Z) :=
  let a : Z * Z := (ToInt32 (fst a), ToInt32 (snd a)) in
  let b : Z * Z := (ToInt32 (fst b), ToInt32 (snd b)) in
  let '(a, b) := if snd a >? snd b then (b, a) else (a, b) in
  let dx := fst b - fst a in
  let dy := snd b - snd a in
  let '(u, v, du, dv, su, sv, dx) :=
    if dx >? 0 then
      if dx >? dy then (fst a, snd a, dx, dy, 1, 1, dx)
      else (snd a, fst a, dy, dx, 1, 1, dx)
    else
      let dx := - dx in
      if dx >? dy then (fst a, snd a, dx, dy, -1, 1, dx)
      else (snd a, fst a, dy, dx, 1, -1, dx) in
  let e := 2 * dv - du in
  let dv2mdu2 := 2 * dv - 2 * du in
  let dv2 := 2 * dv in
  (a, (dx >? dy, du, u, v, e, su, sv, dv2mdu2, dv2)).

(** [du] is not negative (see [bresenham_du_nonneg]), so the loop runs
    [du] times. *)
Definition bresenham_run (a b : Point) (s : S) : S :=
  let '(a, (major, du, u, v, e, su, sv, dv2mdu2, dv2)) :=
    bresenham_setup a b in
  let s := plot (int_point a) s in
  bresenham_loop (Z.to_nat du) major du u v e su sv dv2mdu2 dv2 s.

End Bresenham.

(** [bresenham] on a framebuffer. *)
Definition bresenham (fbuf : ImageData) (a b : Point) (color : Color)
  : ImageData :=
  bresenham_run (fun p f => pixel f p (Some color)) a b fbuf.

(** The points that [bresenham] plots, in the order of plotting. *)
Definition bresenham_points (a b : Point) : list Point :=
  bresenham_run log_point a b [].

(** Plotting the points of a log, in order. *)
Definition replay {S : Type} (plot : Point -> S -> S) (log : list Point)
  (s : S) : S :=
  fold_left (fun s p => plot p s) log s.

(** The coordinates of a point as [pixel] and [bresenham] read them. *)
Definition trunc_point (p : Point) : Z * Z :=
  (ToInt32 (fst p), ToInt32 (snd p)).


(** ** Lines *)

(** The two call signatures of [line]. *)
Inductive LineArgs : Type :=
| TwoPoints (b : Point) (color : option Color)
| AngleLength (angle length_ : number) (color : option Color).

Section Line.

Variables Math_sin Math_cos : number -> number.

Definition line (fbuf : ImageData) (point : Point) (args : LineArgs)
  : ImageData :=
  let a := point in
  let '(b, color) :=
    match args with
    | TwoPoints b color => (b, color)
    | AngleLength angle length_ color =>
        let x := (fst point + Math_floor (length_ * Math_cos angle))%num in
        let y := (snd point + Math_floor (length_ * Math_sin angle))%num in
        ((x, y), color)
    end in
  let color := or_default ColorDefault color in
  bresenham fbuf a b color.


End Line.

(** ** Ray casting *)

(** World-space coordinates. *)
Record Position : Type := mkPosition
  { pos_x : number;
    pos_y : number }.

(** The calls that [render] makes into the drawing module. *)
Inductive DrawCall : Type :=
| DrawColumn (x : Z) (height_ : number)
| DrawLine (origin : Point) (angle length_ : number) (color : Color).

Section Cast.

Variables Math_sin Math_cos Math_tan : number -> number.

(** [cast].  The trigonometry and the tile of the position are computed
    and the traversal of the grid is left undone: the function returns
    [Infinity]. *)
Definition cast (pos : Position) (angle : number) : number :=
  let sin := Math_sin angle in
  let cos := Math_cos angle in
  let tan := if strict_neq cos (of_Z 0) then Some (sin / cos)%num else None in
  let cot := if strict_neq sin (of_Z 0) then Some (cos / sin)%num else None in
  let tilex := ToInt32 (Math_floor (pos_x pos / of_Z 64)%num) in
  let tiley := ToInt32 (Math_floor (pos_y pos / of_Z 64)%num) in
  Infinity.

(** The color of the debug lines, [colorHex("#aaaaff")]; the literal is
    well formed (see [debug_color_parses]). *)
Definition debug_color : Color :=
  match colorHex "#aaaaff" None with
  | inr c => c
  | inl _ => ColorDefault
  end.

(** The body of [render] is written over the ray caster that it calls and
    over the two drawing operations that it uses, so that it can be run on
    a framebuffer and on a log of its calls.  [render] itself is the
    instance at [cast], [column] and [line]. *)

Section Render.

Context {S : Type}.
Variable ray : Position -> number -> number.
Variable draw_column : S -> Z -> number -> S.
Variable draw_line : S -> Point -> number -> number -> Color -> S.

Definition fov : number := of_Z 1.
Definition projh : number := of_Z 200.

Definition projw (w h : Z) : number := (projh * of_Z w / of_Z h)%num.

Definition projd (w h : Z) : number :=
  (projw w h / of_Z 2 / Math_tan (fov / of_Z 2))%num.

Definition delta (w : Z) : number := (fov / of_Z w)%num.

(** The wall height of a column from the distance of its ray. *)
Definition wall_height (w h : Z) (dir angle distance : number) : number :=
  let corrected := (distance * Math_cos (angle - dir))%num in
  (of_Z 64 / corrected * projd w h)%num.

(** The loop over the columns; [n] is the number of columns left. *)
Fixpoint render_loop (n : nat) (w h : Z) (pos : Position) (dir : number)
  (column_ : Z) (angle : number) (s : S) : S :=
  match n with
  | O => s
  | Datatypes.S k =>
      let distance := ray pos angle in
      let s :=
        if strict_neq distance Infinity
        then draw_column s column_ (wall_height w h dir angle distance)
        else s in
      let len := if strict_eq distance Infinity then of_Z 100
                 else (distance / of_Z 10)%num in
      let s := draw_line s (of_Z 100, of_Z 100) angle len debug_color in
      render_loop k w h pos dir (column_ + 1) (angle + delta w)%num s
  end.

Definition render_run (w h : Z) (pos : Position) (dir : number) (s : S) : S :=
  let angle := (dir - fov / of_Z 2)%num in
  render_loop (Z.to_nat w) w h pos dir 0 angle s.

End Render.

(** [render] with the ray caster as a parameter. *)
Definition render_with (ray : Position -> number -> number)
  (fbuf : ImageData) (pos : Position) (dir : number) : ImageData :=
  render_run ray
    (fun f x h => column f (of_Z x) h None)
    (fun f p a l c => line Math_sin Math_cos f p (AngleLength a l (Some c)))
    (width fbuf) (height fbuf) pos dir fbuf.

(** [render]. *)
Definition render (fbuf : ImageData) (pos : Position) (dir : number)
  : ImageData :=
  render_with cast fbuf pos dir.

(** The calls of [render], in order. *)
Definition render_calls (ray : Position -> number -> number)
  (w h : Z) (pos : Position) (dir : number) : list DrawCall :=
  render_run ray
    (fun log x h => log ++ [DrawColumn x h])
    (fun log p a l c => log ++ [DrawLine p a l c])
    w h pos dir [].

(** The effect of one call on a framebuffer. *)
Definition perform (fbuf : ImageData) (c : DrawCall) : ImageData :=
  match c with
  | DrawColumn x h => column fbuf (of_Z x) h None
  | DrawLine p a l c =>
      line Math_sin Math_cos fbuf p (AngleLength a l (Some c))
  end.

(** The renderer without its debug overlay: the same loop, with a
    [draw.line] that draws nothing. *)
Definition render_calls_no_debug (ray : Position -> number -> number)
  (w h : Z) (pos : Position) (dir : number) : list DrawCall :=
  render_run ray
    (fun log x h => log ++ [DrawColumn x h])
    (fun log _ _ _ _ => log)
    w h pos dir [].

(** *** The log of calls, column by column *)

Section RenderLog.

Variable ray : Position -> number -> number.

(** The angle of the ray [k] columns after a column of ray angle
    [angle]: [angle += delta], [k] times. *)
Fixpoint angle_after (k : nat) (w : Z) (angle : number) : number :=
  match k with
  | O => angle
  | S k' => angle_after k' w (angle + delta w)%num
  end.

Definition first_angle (dir : number) : number := (dir - fov / of_Z 2)%num.


(** The calls of one iteration of the loop of [render]. *)
Definition iteration_calls (w h : Z) (pos : Position) (dir : number)
  (column_ : Z) (angle : number) : list DrawCall :=
  let distance := ray pos angle in
  (if strict_neq distance Infinity
   then [DrawColumn column_ (wall_height w h dir angle distance)]
   else []) ++
  [DrawLine (of_Z 100, of_Z 100) angle
     (if strict_eq distance Infinity then of_Z 100
      else (distance / of_Z 10)%num) debug_color].

End RenderLog.


Definition is_column (call : DrawCall) : bool :=
  match call with
  | DrawColumn _ _ => true
  | DrawLine _ _ _ _ => false
  end.

(** A distance that is a number other than NaN and the infinities. *)
Definition is_finite (x : number) : bool :=
  match x with
  | S754_finite _ _ _ | S754_zero _ => true
  | _ => false
  end.





End Cast.


(** ** Sample inputs

    Polynomial stand-ins for the trigonometric functions, a 4 by 4
    framebuffer and the origin of the world, used to run the definitions
    on concrete inputs. *)

Definition poly_cos (x : number) : number :=
  (of_Z 1 - x * x / of_Z 2)%num.


Definition frame4 : ImageData := mkImageData 4 4 (repeat 0 64).

Definition origin : Position := mkPosition (of_Z 0) (of_Z 0).



(** ** Notions for the properties of the drawing functions *)

(** The offset of a point in the data of a framebuffer, as [pixel]
    computes it. *)
Definition pixel_offset (fbuf : ImageData) (p : Point) : Z :=
  4 * (ToInt32 (fst p) + width fbuf * ToInt32 (snd p)).

(** A framebuffer [g] with the dimensions and the data length of [f]. *)
Definition same_shape (f g : ImageData) : Prop :=
  width g = width f /\ height g = height f /\
  List.length (data g) = List.length (data f).

(** Whether some point of a log has the offset [o]. *)
Definition plots_offset (fbuf : ImageData) (log : list Point) (o : Z) : bool :=
  existsb (fun p => pixel_offset fbuf p =? o) log.

(** [n / d] rounded to the nearest integer, halves upwards. *)
Definition round_div (n d : Z) : Z := (2 * n + d) / (2 * d).

(** The point of major coordinate [u] and minor coordinate [v]. *)
Definition axis_point (major : bool) (u v : Z) : Point :=
  if major then int_point (u, v) else int_point (v, u).

(** The rasterization of a segment of major extent [D] and minor extent
    [dv], from the major coordinate [u0] and the minor coordinate [v0] in
    the directions [su] and [sv]: one point per major step, its minor
    coordinate the nearest to the ideal line. *)
Definition raster (major : bool) (u0 v0 su sv D dv : Z) : list Point :=
  map (fun k => axis_point major (u0 + su * Z.of_nat k)
                  (v0 + sv * round_div (dv * Z.of_nat k) D))
    (seq 0 (S (Z.to_nat D))).

(** The endpoints of a line in the order in which [bresenham] draws it:
    the one on the upper row first. *)
Definition ordered_endpoints (a b : Point) : (Z * Z) * (Z * Z) :=
  if snd (trunc_point a) >? snd (trunc_point b)
  then (trunc_point b, trunc_point a)
  else (trunc_point a, trunc_point b).

(** The points nearest to the ideal line between two endpoints, along
    the axis of its greater extent. *)
Definition ideal_points (a b : Point) : list Point :=
  let '(p, q) := ordered_endpoints a b in
  let DX := fst q - fst p in
  let DY := snd q - snd p in
  if Z.abs DX >? DY
  then raster true (fst p) (snd p) (Z.sgn DX) 1 (Z.abs DX) DY
  else raster false (snd p) (fst p) 1 (Z.sgn DX) DY (Z.abs DX).

(** The value of a hexadecimal digit, 0 for any other character. *)
Definition hex_value (c : ascii) : Z := or_default 0 (hex_digit_value c).



(** The points that [column] plots when its loop is given [fuel]
    iterations at most.  The loop of the source has no such bound: a
    property of [column] is one that holds for every [fuel] from some value
    on, which is then a property of the loop ending by its own test. *)
Definition column_points_fuel (fuel : nat) (h : Z) (x : number)
  (height_ : number) : list Point :=
  let height_ := clamp_height h height_ in
  let y := sar (ToInt32 (of_Z h - height_)%num) 1 in
  column_loop log_point fuel x height_ 0 y [].





(** * Properties *)

(** ** The definitions on concrete inputs *)

Example ToInt32_fraction :
  ToInt32 (of_Z 5 / of_Z 2)%num = 2 /\ ToInt32 (of_Z (-5) / of_Z 2)%num = -2 /\
  ToInt32 NaN = 0 /\ ToInt32 Infinity = 0 /\ ToInt32 (of_Z (2 ^ 31)) = - 2 ^ 31.
Proof. repeat split. Qed.

Example Math_floor_fraction :
  Math_floor (of_Z 5 / of_Z 2)%num = of_Z 2 /\
  Math_floor (of_Z (-5) / of_Z 2)%num = of_Z (-3).
Proof. split; reflexivity. Qed.

Example colorRGBA_fraction :
  colorRGBA (of_Z 511 / of_Z 2)%num (of_Z 300) NaN None = (255, 44, 0, 255).
Proof. reflexivity. Qed.

Example bresenham_octant :
  map trunc_point (bresenham_points (int_point (0, 0)) (int_point (7, 3))) =
    [(0, 0); (1, 0); (2, 1); (3, 1); (4, 2); (5, 2); (6, 3); (7, 3)] /\
  bresenham_points (int_point (7, 3)) (int_point (0, 0)) =
    bresenham_points (int_point (0, 0)) (int_point (7, 3)).
Proof. split; reflexivity. Qed.

Example bresenham_horizontal :
  map trunc_point (bresenham_points (int_point (3, 0)) (int_point (0, 0))) =
    [(3, 0); (2, 0); (1, 0); (0, 0)].
Proof. reflexivity. Qed.

Example column_half_height :
  map trunc_point (column_points 4 (of_Z 1) (of_Z 5 / of_Z 2)%num) =
    [(1, 0); (1, 1); (1, 2)].
Proof. reflexivity. Qed.

(** ** Integers as numbers

    An integer below [2^53] in absolute value is a double: its mantissa is
    the integer shifted to 53 bits, and rounding leaves it unchanged. *)

Lemma digits2_pos_iter (k p : positive) :
  digits2_pos (Pos.iter xO p k) = (digits2_pos p + k)%positive.
Proof.
  induction k as [|k IH] using Pos.peano_ind.
  - simpl. lia.
  - rewrite Pos.iter_succ. simpl. rewrite IH. lia.
Qed.

Lemma Zpos_iter_xO (k p : positive) :
  Zpos (Pos.iter xO p k) = Zpos p * 2 ^ Zpos k.
Proof.
  induction k as [|k IH] using Pos.peano_ind.
  - simpl. lia.
  - rewrite Pos.iter_succ, Pos2Z.inj_xO, IH, Pos2Z.inj_succ, Z.pow_succ_r
      by lia.
    ring.
Qed.

Lemma digits2_pos_lower (p : positive) :
  2 ^ (Zpos (digits2_pos p) - 1) <= Zpos p.
Proof.
  induction p as [p IH|p IH|]; cbn [digits2_pos].
  - rewrite Pos2Z.inj_succ.
    replace (Z.succ (Z.pos (digits2_pos p)) - 1)
      with (Z.succ (Z.pos (digits2_pos p) - 1)) by lia.
    rewrite Z.pow_succ_r by lia. lia.
  - rewrite Pos2Z.inj_succ.
    replace (Z.succ (Z.pos (digits2_pos p)) - 1)
      with (Z.succ (Z.pos (digits2_pos p) - 1)) by lia.
    rewrite Z.pow_succ_r by lia. lia.
  - simpl. lia.
Qed.

Lemma digits2_pos_upper (p : positive) :
  Zpos p < 2 ^ Zpos (digits2_pos p).
Proof.
  induction p as [p IH|p IH|]; cbn [digits2_pos].
  - rewrite Pos2Z.inj_succ, Z.pow_succ_r by lia. lia.
  - rewrite Pos2Z.inj_succ, Z.pow_succ_r by lia. lia.
  - simpl. lia.
Qed.

Lemma digits2_pos_small (p : positive) :
  Zpos p < 2 ^ 53 -> Zpos (digits2_pos p) <= 53.
Proof.
  intros Hp. pose proof (digits2_pos_lower p) as Hl.
  destruct (Z.le_gt_cases (Zpos (digits2_pos p)) 53) as [|Hgt]; [assumption|].
  exfalso.
  assert (2 ^ 53 <= 2 ^ (Z.pos (digits2_pos p) - 1))
    by (apply Z.pow_le_mono_r; lia).
  lia.
Qed.

Lemma shr_fexp_exact (m : positive) (e : Z) :
  Zpos (digits2_pos m) = 53 -> -1074 <= e ->
  shr_fexp prec emax (Zpos m) e loc_Exact =
  (Build_shr_record (Zpos m) false false, e).
Proof.
  intros Hd He.
  unfold shr_fexp.
  assert (Hn : fexp prec emax (Zdigits2 (Z.pos m) + e) - e = 0).
  { unfold fexp, emin, prec, emax, Zdigits2. rewrite Hd. lia. }
  change (Z.sub (fexp prec emax (Z.add (Zdigits2 (Z.pos m)) e)) e)
    with (fexp prec emax (Zdigits2 (Z.pos m) + e) - e).
  rewrite Hn. reflexivity.
Qed.

Lemma binary_round_aux_exact (s : bool) (m : positive) (e : Z) :
  Zpos (digits2_pos m) = 53 -> -1074 <= e <= 971 ->
  binary_round_aux prec emax s (Zpos m) e loc_Exact = S754_finite s m e.
Proof.
  intros Hd He.
  unfold binary_round_aux.
  rewrite shr_fexp_exact by lia.
  cbn [shr_m loc_of_shr_record round_nearest_even].
  rewrite shr_fexp_exact by lia.
  cbn [shr_m].
  change (Z.leb e (Z.sub emax prec)) with (e <=? 971).
  destruct (Z.leb_spec e 971); [reflexivity | lia].
Qed.

(** The double of a positive integer of at most 53 bits. *)
Lemma binary_round_int (s : bool) (p : positive) :
  Zpos (digits2_pos p) <= 53 ->
  exists m e, binary_round prec emax s p 0 = S754_finite s m e /\ e <= 0 /\
              Zpos m = Zpos p * 2 ^ (- e) /\
              e = Zpos (digits2_pos p) - 53.
Proof.
  intros Hd.
  unfold binary_round, shl_align.
  assert (Hf : fexp prec emax (Z.pos (digits2_pos p) + 0) - 0 =
               Z.pos (digits2_pos p) - 53).
  { unfold fexp, emin, prec, emax. lia. }
  assert (Hf' : fexp prec emax (Z.pos (digits2_pos p) + 0) =
                Z.pos (digits2_pos p) - 53).
  { unfold fexp, emin, prec, emax. lia. }
  change (Z.sub (fexp prec emax (Z.add (Z.pos (digits2_pos p)) 0)) 0)
    with (fexp prec emax (Z.pos (digits2_pos p) + 0) - 0).
  change (fexp prec emax (Z.add (Z.pos (digits2_pos p)) 0))
    with (fexp prec emax (Z.pos (digits2_pos p) + 0)).
  rewrite Hf, Hf'.
  destruct (Z.pos (digits2_pos p) - 53) as [|k|k] eqn:Hk.
  - exists p, 0. split; [|split; [|split]]; try lia.
    apply binary_round_aux_exact; lia.
  - lia.
  - exists (Pos.iter xO p k), (Z.neg k). split; [|split; [|split]]; try lia.
    + apply binary_round_aux_exact; [|lia].
      rewrite digits2_pos_iter. lia.
    + rewrite Zpos_iter_xO. reflexivity.
Qed.

Lemma of_Z_shape (z : Z) :
  - 2 ^ 53 < z < 2 ^ 53 ->
  of_Z z = pzero \/
  exists s m e, of_Z z = S754_finite s m e /\ e <= 0 /\
                Zpos m = Z.abs z * 2 ^ (- e) /\ s = (z <? 0).
Proof.
  intros Hz. destruct z as [|p|p].
  - now left.
  - right. destruct (binary_round_int false p) as (m & e & Hr & He & Hm & _).
    { apply digits2_pos_small. lia. }
    exists false, m, e. repeat split; assumption.
  - right. destruct (binary_round_int true p) as (m & e & Hr & He & Hm & _).
    { apply digits2_pos_small. lia. }
    exists true, m, e. repeat split; assumption.
Qed.

Lemma trunc_exact (s : bool) (p m : positive) (e : Z) :
  e <= 0 -> Zpos m = Zpos p * 2 ^ (- e) ->
  trunc s m e = cond_Zopp s (Zpos p).
Proof.
  intros He Hm. unfold trunc. f_equal.
  rewrite Hm.
  replace e with (- (- e)) at 2 by lia.
  rewrite Z.shiftl_opp_r, Z.shiftr_div_pow2 by lia.
  apply Z.div_mul. apply Z.pow_nonzero; lia.
Qed.

(** Converting an integer below [2^53] to a number and back with
    [ToInt32] reduces it to the int32 range. *)
Lemma ToInt32_of_Z (z : Z) :
  - 2 ^ 53 < z < 2 ^ 53 -> ToInt32 (of_Z z) = wrap32 z.
Proof.
  intros Hz. destruct z as [|p|p].
  - reflexivity.
  - destruct (binary_round_int false p) as (m & e & Hr & He & Hm & _).
    { apply digits2_pos_small. lia. }
    unfold of_Z, binary_normalize. rewrite Hr. cbn [ToInt32].
    rewrite (trunc_exact false p) by assumption. reflexivity.
  - destruct (binary_round_int true p) as (m & e & Hr & He & Hm & _).
    { apply digits2_pos_small. lia. }
    unfold of_Z, binary_normalize. rewrite Hr. cbn [ToInt32].
    rewrite (trunc_exact true p) by assumption. reflexivity.
Qed.

Lemma wrap32_range (z : Z) : - 2 ^ 31 <= wrap32 z < 2 ^ 31.
Proof.
  unfold wrap32.
  pose proof (Z.mod_pos_bound (z + 2 ^ 31) (2 ^ 32) ltac:(lia)). lia.
Qed.

Lemma wrap32_small (z : Z) : - 2 ^ 31 <= z < 2 ^ 31 -> wrap32 z = z.
Proof.
  intros Hz. unfold wrap32. rewrite Z.mod_small by lia. lia.
Qed.

Lemma ToInt32_range (x : number) : - 2 ^ 31 <= ToInt32 x < 2 ^ 31.
Proof.
  destruct x; cbn [ToInt32]; try lia. apply wrap32_range.
Qed.

Lemma ToInt32_of_Z_int32 (z : Z) :
  - 2 ^ 31 <= z < 2 ^ 31 -> ToInt32 (of_Z z) = z.
Proof.
  intros Hz. rewrite ToInt32_of_Z by lia. apply wrap32_small, Hz.
Qed.

Lemma ToInt32_idem (x : number) : ToInt32 (of_Z (ToInt32 x)) = ToInt32 x.
Proof. apply ToInt32_of_Z_int32, ToInt32_range. Qed.


Lemma lt_irrefl (x : number) : Num.lt x x = false.
Proof.
  unfold Num.lt, SFltb. destruct x as [s|s| |s m e]; try reflexivity.
  - destruct s; reflexivity.
  - cbn [SFcompare]. rewrite Z.compare_refl.
    assert (Pos.compare_cont Eq m m = Eq) as -> by apply Pos.compare_refl.
    destruct s; reflexivity.
Qed.

(** The order of the integers is the order of their doubles. *)
Lemma of_Z_lt_mono (i h : Z) :
  0 <= i < h -> h < 2 ^ 53 -> Num.lt (of_Z i) (of_Z h) = true.
Proof.
  intros Hi Hh. destruct h as [|q|q]; try lia.
  destruct (binary_round_int false q) as (m2 & e2 & Hr2 & He2 & Hm2 & Hd2).
  { apply digits2_pos_small. lia. }
  unfold of_Z at 2. cbn [binary_normalize]. rewrite Hr2.
  destruct i as [|p|p]; try lia; [reflexivity|].
  destruct (binary_round_int false p) as (m1 & e1 & Hr1 & He1 & Hm1 & Hd1).
  { apply digits2_pos_small. lia. }
  unfold of_Z. cbn [binary_normalize]. rewrite Hr1.
  unfold Num.lt, SFltb. cbn [SFcompare].
  pose proof (digits2_pos_lower p) as Hlp.
  pose proof (digits2_pos_upper q) as Huq.
  assert (Hdig : Zpos (digits2_pos p) <= Zpos (digits2_pos q)).
  { destruct (Z.le_gt_cases (Zpos (digits2_pos p)) (Zpos (digits2_pos q)))
      as [|Hgt]; [assumption|exfalso].
    assert (2 ^ Zpos (digits2_pos q) <= 2 ^ (Zpos (digits2_pos p) - 1))
      by (apply Z.pow_le_mono_r; lia).
    lia. }
  destruct (Z.compare_spec e1 e2) as [Heq|Hlt|Hgt]; [|reflexivity|lia].
  assert (Hlt : Zpos m1 < Zpos m2).
  { rewrite Hm1, Hm2, Heq.
    apply Z.mul_lt_mono_pos_r; [apply Z.pow_pos_nonneg; lia|lia]. }
  change (Pos.compare_cont Eq m1 m2 = Lt) in Hlt. now rewrite Hlt.
Qed.

Lemma sub_self (z : Z) :
  - 2 ^ 53 < z < 2 ^ 53 -> (of_Z z - of_Z z)%num = pzero.
Proof.
  intros Hz. destruct (of_Z_shape z Hz) as [->|(s & m & e & -> & _)];
    [reflexivity|].
  unfold Num.sub, SFsub, shl_align.
  match goal with
  | |- context [match ?k with Z.neg _ => _ | _ => _ end] =>
      assert (Hk : k = 0) by (change (Z.min e e - e = 0); lia);
      rewrite Hk
  end.
  cbn [fst]. rewrite Z.sub_diag. reflexivity.
Qed.




(** ** Colors *)

Lemma bit_and_255 (x : number) : bit_and x (of_Z 255) = ToInt32 x mod 256.
Proof.
  unfold bit_and. change (ToInt32 (of_Z 255)) with (Z.ones 8).
  rewrite Z.land_ones by lia. reflexivity.
Qed.

Lemma bit_and_255_range (x : number) : 0 <= bit_and x (of_Z 255) <= 255.
Proof.
  rewrite bit_and_255.
  pose proof (Z.mod_pos_bound (ToInt32 x) 256 ltac:(lia)). lia.
Qed.

Lemma colorRGBA_valid (r g b : number) (a : option number) :
  valid_color (colorRGBA r g b a).
Proof.
  intros k. unfold colorRGBA, channel.
  destruct k as [|[|[|k]]]; apply bit_and_255_range.
Qed.

(** The channels are not clamped: [colorRGBA(256, -1, 0)] has red 0 and
    green 255, where clamping would give red 255 and green 0. *)
Lemma colorRGBA_does_not_clamp :
  Num.gt (of_Z 256) (of_Z 255) = true /\
  channel 0 (colorRGBA (of_Z 256) (of_Z (-1)) (of_Z 0) None) = 0 /\
  channel 0 (colorRGBA (of_Z 256) (of_Z (-1)) (of_Z 0) None) <> 255 /\
  Num.lt (of_Z (-1)) (of_Z 0) = true /\
  channel 1 (colorRGBA (of_Z 256) (of_Z (-1)) (of_Z 0) None) = 255 /\
  channel 1 (colorRGBA (of_Z 256) (of_Z (-1)) (of_Z 0) None) <> 0.
Proof. repeat split; try reflexivity; vm_compute; discriminate. Qed.

(** Claim C2, amended: every channel of [colorRGBA(r, g, b, a)] is its
    own input converted to a 32-bit integer and reduced modulo 256 (the low
    eight bits of the input), whatever the other inputs are, and so lies in
    the range 0..255; the alpha channel defaults to 255. *)
Theorem colorRGBA_masks (r g b : number) (a : option number) :
  colorRGBA r g b a =
    (ToInt32 r mod 256, ToInt32 g mod 256, ToInt32 b mod 256,
     ToInt32 (or_default (of_Z 255) a) mod 256) /\
  valid_color (colorRGBA r g b a) /\
  channel 3 (colorRGBA r g b None) = 255.
Proof.
  split; [|split].
  - unfold colorRGBA. rewrite !bit_and_255. reflexivity.
  - apply colorRGBA_valid.
  - reflexivity.
Qed.

(** Integers that are already channel values pass through unchanged. *)
Lemma colorRGBA_in_range (r g b a : Z) :
  0 <= r <= 255 -> 0 <= g <= 255 -> 0 <= b <= 255 -> 0 <= a <= 255 ->
  colorRGBA (of_Z r) (of_Z g) (of_Z b) (Some (of_Z a)) = (r, g, b, a).
Proof.
  intros Hr Hg Hb Ha. unfold colorRGBA. cbn [or_default].
  rewrite !bit_and_255, !ToInt32_of_Z_int32, !Z.mod_small by lia.
  reflexivity.
Qed.

(** The character class [[0-9a-f]] under the [i] flag accepts exactly the
    hexadecimal digits; both sides are decided on each of the 256
    characters. *)
Lemma class_hex_digit (c : ascii) :
  RegExp.class_matches true [("0", "9"); ("a", "f")]%char c = is_hex_digit c.
Proof. destruct c as [[] [] [] [] [] [] [] []]; reflexivity. Qed.

Lemma chr_hash (c : ascii) :
  (RegExp.canonicalize true "#" =? RegExp.canonicalize true c)%char =
  (c =? "#")%char.
Proof. destruct c as [[] [] [] [] [] [] [] []]; reflexivity. Qed.

Ltac hex_case :=
  match goal with
  | |- context [RegExp.class_matches true _ ?c] =>
      rewrite (class_hex_digit c)
  | |- context [if is_hex_digit ?c then _ else _] =>
      destruct (is_hex_digit c) eqn:?
  | |- context [(?h =? "#")%char] => destruct (h =? "#")%char eqn:?
  | |- context [is_hex_digit ?c && _] => destruct (is_hex_digit c) eqn:?
  end.

(** The pattern of [colorHex] matches exactly the strings of the format,
    and captures the six digits. *)
Lemma hex_pattern_matches (s : string) :
  RegExp.match_anchored true hex_pattern s =
  if matches_rrggbb s then Some [s; substring 1 6 s] else None.
Proof.
  unfold RegExp.match_anchored, hex_pattern, matches_rrggbb.
  destruct s as [|h [|c1 [|c2 [|c3 [|c4 [|c5 [|c6 [|c7 s]]]]]]]];
    cbn [RegExp.run RegExp.repeat_run]; rewrite ?chr_hash;
    repeat (hex_case; cbn [andb forallb append app substring]);
    reflexivity.
Qed.

(** Claim C6: [colorHex] throws its invalid-format exception on every
    string that is not of the format [#rrggbb] (a hash sign and six
    hexadecimal digits of either case) and returns a color on every string
    that is; [colorHex("#aabbcc")] is [colorRGBA(0xaa, 0xbb, 0xcc, 255)]
    and [colorHex("not-a-color")] throws. *)
Theorem colorHex_format (hex : string) (a : option number) :
  (if matches_rrggbb hex
   then exists c, colorHex hex a = inr c
   else colorHex hex a = inl invalid_hex) /\
  colorHex "#aabbcc" None =
    inr (colorRGBA (of_Z 170) (of_Z 187) (of_Z 204) (Some (of_Z 255))) /\
  colorHex "not-a-color" None = inl invalid_hex.
Proof.
  split; [|split; reflexivity].
  unfold colorHex. rewrite hex_pattern_matches.
  destruct (matches_rrggbb hex); [eexists|]; reflexivity.
Qed.

(** Claim C10: every color that [colorRGBA] returns, for any numbers at
    all (fractional, out of range, infinite or NaN), and every color that
    [colorHex] returns has its four channels integers between 0 and
    255. *)
Theorem colors_are_bytes (r g b : number) (a : option number) (hex : string) :
  valid_color (colorRGBA r g b a) /\
  match colorHex hex a with
  | inr c => valid_color c
  | inl _ => True
  end.
Proof.
  split; [apply colorRGBA_valid|].
  unfold colorHex.
  destruct (RegExp.match_anchored true hex_pattern hex);
    [apply colorRGBA_valid | exact I].
Qed.

Lemma debug_color_parses :
  colorHex "#aaaaff" None = inr (170, 170, 255, 255).
Proof. reflexivity. Qed.

(** ** Bresenham's algorithm *)

Section BresenhamFacts.

Context {S : Type}.
Variable plot : Point -> S -> S.

Lemma bresenham_loop_log (fuel : nat) :
  forall major du u v e su sv d1 d2 log,
    bresenham_loop log_point fuel major du u v e su sv d1 d2 log =
    log ++ bresenham_loop log_point fuel major du u v e su sv d1 d2 [].
Proof.
  induction fuel as [|k IH]; intros; cbn [bresenham_loop].
  - now rewrite app_nil_r.
  - destruct (du =? 0); [now rewrite app_nil_r|].
    destruct (e >=? 0); destruct major;
      rewrite IH; symmetry; rewrite IH; unfold log_point;
      now rewrite app_assoc.
Qed.

Lemma bresenham_loop_replay (fuel : nat) :
  forall major du u v e su sv d1 d2 s,
    bresenham_loop plot fuel major du u v e su sv d1 d2 s =
    replay plot
      (bresenham_loop log_point fuel major du u v e su sv d1 d2 []) s.
Proof.
  induction fuel as [|k IH]; intros; cbn [bresenham_loop].
  - reflexivity.
  - destruct (du =? 0); [reflexivity|].
    destruct (e >=? 0); destruct major;
      rewrite IH,
        (bresenham_loop_log k _ _ _ _ _ _ _ _ _ (log_point _ []));
      unfold replay, log_point; now rewrite fold_left_app.
Qed.

(** Running the algorithm on any state plots the logged points in order. *)
Lemma bresenham_run_replay (a b : Point) (s : S) :
  bresenham_run plot a b s = replay plot (bresenham_points a b) s.
Proof.
  unfold bresenham_points, bresenham_run.
  destruct (bresenham_setup a b)
    as [a' [[[[[[[[major du] u] v] e] su] sv] d1] d2]].
  rewrite bresenham_loop_replay,
    (bresenham_loop_log _ _ _ _ _ _ _ _ _ _ (log_point _ [])).
  unfold replay, log_point. now rewrite fold_left_app.
Qed.

(** The loop stops by its own test: fuel beyond [du] is never used. *)
Lemma bresenham_loop_fuel (n extra : nat) :
  forall major du u v e su sv d1 d2 s,
    du = Z.of_nat n ->
    bresenham_loop plot (n + extra) major du u v e su sv d1 d2 s =
    bresenham_loop plot n major du u v e su sv d1 d2 s.
Proof.
  induction n as [|n IH]; intros major du u v e su sv d1 d2 s Hdu.
  - subst du. destruct extra; reflexivity.
  - cbn [Nat.add bresenham_loop].
    destruct (du =? 0); [reflexivity|].
    destruct (e >=? 0); apply IH; lia.
Qed.

End BresenhamFacts.

Lemma bresenham_replay (fbuf : ImageData) (a b : Point) (color : Color) :
  bresenham fbuf a b color =
  replay (fun p f => pixel f p (Some color)) (bresenham_points a b) fbuf.
Proof. apply bresenham_run_replay. Qed.

Lemma bresenham_du_nonneg (a b : Point) :
  let '(_, (_, du, _, _, _, _, _, _, _)) := bresenham_setup a b in 0 <= du.
Proof.
  unfold bresenham_setup. cbn [fst snd].
  destruct (Z.gtb_spec (ToInt32 (snd a)) (ToInt32 (snd b))); cbn [fst snd];
    repeat match goal with
           | |- context [if ?x >? ?y then _ else _] =>
               destruct (Z.gtb_spec x y)
           end; lia.
Qed.

Lemma pixel_trunc (fbuf : ImageData) (p : Point) (color : option Color) :
  pixel fbuf (int_point (trunc_point p)) color = pixel fbuf p color.
Proof.
  unfold pixel, int_point, trunc_point. cbn [fst snd].
  now rewrite !ToInt32_idem.
Qed.

Lemma bresenham_points_same (a : Point) :
  bresenham_points a a = [int_point (trunc_point a)].
Proof.
  unfold bresenham_points, bresenham_run, bresenham_setup. cbn [fst snd].
  destruct (Z.gtb_spec (ToInt32 (snd a)) (ToInt32 (snd a))); [lia|].
  cbn [fst snd]. rewrite !Z.sub_diag. reflexivity.
Qed.

(** Claim C9: a line from a point to itself plots exactly one pixel, the
    pixel of that point: the log of the plotted points has the single
    entry [a] (with its coordinates as [pixel] reads them, converted to
    int32), and the framebuffer is changed exactly as by
    [pixel(fbuf, a, color)]. *)
Theorem zero_length_line (Math_sin Math_cos : number -> number)
  (fbuf : ImageData) (a : Point) (color : option Color) :
  bresenham_points a a = [int_point (trunc_point a)] /\
  List.length (bresenham_points a a) = 1%nat /\
  line Math_sin Math_cos fbuf a (TwoPoints a color) = pixel fbuf a color.
Proof.
  split; [apply bresenham_points_same|split].
  - now rewrite bresenham_points_same.
  - unfold line. rewrite bresenham_replay, bresenham_points_same.
    cbn [replay fold_left]. rewrite pixel_trunc.
    unfold pixel. destruct color; reflexivity.
Qed.

(** For a point with integer coordinates in the int32 range the single
    plotted point is the point itself. *)
Lemma integer_point_same (x y : Z) :
  - 2 ^ 31 <= x < 2 ^ 31 -> - 2 ^ 31 <= y < 2 ^ 31 ->
  bresenham_points (int_point (x, y)) (int_point (x, y)) = [int_point (x, y)].
Proof.
  intros Hx Hy. rewrite bresenham_points_same.
  unfold trunc_point, int_point. cbn [fst snd].
  now rewrite !ToInt32_of_Z_int32.
Qed.

(** On a horizontal line the error term stays negative and the minor
    coordinate never moves. *)
Lemma bresenham_loop_flat (n : nat) :
  forall du u v e su sv d1 log,
    e < 0 -> du = Z.of_nat n ->
    bresenham_loop log_point n true du u v e su sv d1 0 log =
    log ++ map (fun k => int_point (u + su * Z.of_nat k, v)) (seq 1 n).
Proof.
  induction n as [|n IH]; intros du u v e su sv d1 log He Hdu.
  - cbn. now rewrite app_nil_r.
  - cbn [bresenham_loop].
    destruct (Z.eqb_spec du 0); [lia|].
    destruct (Z.geb_spec e 0); [lia|].
    rewrite IH by lia. unfold log_point. rewrite <- app_assoc.
    f_equal. cbn [seq map app]. f_equal.
    + f_equal. f_equal. lia.
    + rewrite <- (seq_shift n 1), map_map. apply map_ext.
      intros k. f_equal. f_equal. lia.
Qed.

(** The pixels of a horizontal line: the integer points between its
    endpoints, whichever endpoint comes first. *)
Lemma horizontal_points (a b p : Point) :
  snd (trunc_point a) = snd (trunc_point b) ->
  In p (bresenham_points a b) <->
  exists x,
    (fst (trunc_point a) <= x <= fst (trunc_point b) \/
     fst (trunc_point b) <= x <= fst (trunc_point a)) /\
    p = int_point (x, snd (trunc_point a)).
Proof.
  unfold trunc_point. cbn [fst snd].
  set (x1 := ToInt32 (fst a)). set (x2 := ToInt32 (fst b)).
  set (y := ToInt32 (snd a)). intros Hy.
  unfold bresenham_points, bresenham_run, bresenham_setup. cbn [fst snd].
  fold x1 x2 y. rewrite <- Hy.
  destruct (Z.gtb_spec y y); [lia|]. cbn [fst snd].
  rewrite Z.sub_diag.
  destruct (Z.gtb_spec (x2 - x1) 0) as [Hpos|Hneg].
  - destruct (Z.gtb_spec (x2 - x1) 0); [|lia].
    rewrite bresenham_loop_flat by lia.
    unfold log_point. cbn [app In]. rewrite in_map_iff. split.
    + intros [<-|(k & <- & Hk)].
      * exists x1. split; [lia|reflexivity].
      * apply in_seq in Hk. exists (x1 + 1 * Z.of_nat k).
        split; [lia|reflexivity].
    + intros (x & Hx & ->).
      destruct (Z.eq_dec x x1) as [->|Hne]; [now left|].
      right. exists (Z.to_nat (x - x1)). split.
      * f_equal. f_equal. lia.
      * apply in_seq. lia.
  - cbn zeta. destruct (Z.gtb_spec (- (x2 - x1)) 0) as [Hlt|Heq].
    + destruct (Z.gtb_spec (- (x2 - x1)) 0); [|lia].
      rewrite bresenham_loop_flat by lia.
      unfold log_point. cbn [app In]. rewrite in_map_iff. split.
      * intros [<-|(k & <- & Hk)].
        -- exists x1. split; [lia|reflexivity].
        -- apply in_seq in Hk. exists (x1 + -1 * Z.of_nat k).
           split; [lia|reflexivity].
      * intros (x & Hx & ->).
        destruct (Z.eq_dec x x1) as [->|Hne]; [now left|].
        right. exists (Z.to_nat (x1 - x)). split.
        -- f_equal. f_equal. lia.
        -- apply in_seq. lia.
    + replace (Z.to_nat 0) with 0%nat by reflexivity.
      unfold log_point. cbn [bresenham_loop app In]. split.
      * intros [<-|[]]. exists x1. split; [lia|reflexivity].
      * intros (x & Hx & ->). left. f_equal. f_equal. lia.
Qed.

(** Claim C3: the line from [a] to [b] and the line from [b] to [a] plot
    the same set of pixels: a point is plotted by the one if and only if
    it is plotted by the other. *)
Theorem line_symmetric (a b p : Point) :
  In p (bresenham_points a b) <-> In p (bresenham_points b a).
Proof.
  destruct (Z.lt_trichotomy (snd (trunc_point a)) (snd (trunc_point b)))
    as [Hlt|[Heq|Hgt]].
  - unfold bresenham_points, bresenham_run, bresenham_setup, trunc_point in *.
    cbn [fst snd] in *.
    destruct (Z.gtb_spec (ToInt32 (snd a)) (ToInt32 (snd b))); [lia|].
    destruct (Z.gtb_spec (ToInt32 (snd b)) (ToInt32 (snd a))); [|lia].
    reflexivity.
  - rewrite (horizontal_points a b) by assumption.
    rewrite (horizontal_points b a) by (symmetry; assumption).
    rewrite Heq.
    split; intros (x & Hx & ->); exists x; (split; [tauto|reflexivity]).
  - unfold bresenham_points, bresenham_run, bresenham_setup, trunc_point in *.
    cbn [fst snd] in *.
    destruct (Z.gtb_spec (ToInt32 (snd a)) (ToInt32 (snd b))); [|lia].
    destruct (Z.gtb_spec (ToInt32 (snd b)) (ToInt32 (snd a))); [lia|].
    reflexivity.
Qed.

(** ** Lines *)

Lemma line_two_points_replay (Math_sin Math_cos : number -> number)
  (fbuf : ImageData) (a b : Point) (color : option Color) :
  line Math_sin Math_cos fbuf a (TwoPoints b color) =
  replay (fun p f => pixel f p (Some (or_default ColorDefault color)))
    (bresenham_points a b) fbuf.
Proof. unfold line. apply bresenham_replay. Qed.


(** ** Columns *)

Section ColumnFacts.

Context {S : Type}.
Variable plot : Point -> S -> S.

Lemma column_loop_stops (n extra : nat) (x height_ : number) :
  forall i y s,
    Num.lt (of_Z (i + Z.of_nat n)) height_ = false ->
    column_loop plot (n + extra) x height_ i y s =
    column_loop plot n x height_ i y s.
Proof.
  induction n as [|n IH]; intros i y s Hstop.
  - rewrite Z.add_0_r in Hstop.
    destruct extra; cbn [Nat.add column_loop]; [reflexivity|].
    now rewrite Hstop.
  - cbn [Nat.add column_loop].
    destruct (Num.lt (of_Z i) height_); [|reflexivity].
    apply IH. rewrite <- Hstop. do 2 f_equal. lia.
Qed.

(** The loop of [column] ends by its own test within [height fbuf]
    iterations: more fuel changes nothing. *)
Lemma column_loop_fuel (h : Z) (extra : nat) (x height_ : number) (y : Z)
  (s : S) :
  0 <= h ->
  column_loop plot (Z.to_nat h + extra) x (clamp_height h height_) 0 y s =
  column_loop plot (Z.to_nat h) x (clamp_height h height_) 0 y s.
Proof.
  intros Hh. apply column_loop_stops.
  rewrite Z.add_0_l, Z2Nat.id by assumption.
  unfold clamp_height, Num.gt.
  destruct (SFltb (of_Z h) height_) eqn:Hgt.
  - apply lt_irrefl.
  - exact Hgt.
Qed.

Lemma column_loop_log (n : nat) (x height_ : number) :
  forall i y log,
    column_loop log_point n x height_ i y log =
    log ++ column_loop log_point n x height_ i y [].
Proof.
  induction n as [|n IH]; intros i y log; cbn [column_loop].
  - now rewrite app_nil_r.
  - destruct (Num.lt (of_Z i) height_); [|now rewrite app_nil_r].
    rewrite IH. symmetry. rewrite IH. unfold log_point.
    now rewrite app_assoc.
Qed.

Lemma column_loop_replay (n : nat) (x height_ : number) :
  forall i y s,
    column_loop plot n x height_ i y s =
    replay plot (column_loop log_point n x height_ i y []) s.
Proof.
  induction n as [|n IH]; intros i y s; cbn [column_loop].
  - reflexivity.
  - destruct (Num.lt (of_Z i) height_); [|reflexivity].
    rewrite IH, (column_loop_log n x height_ _ _ (log_point _ [])).
    unfold replay, log_point. now rewrite fold_left_app.
Qed.

Lemma column_run_replay (h : Z) (x height_ : number) (s : S) :
  column_run plot h x height_ s =
  replay plot (column_points h x height_) s.
Proof. unfold column_points, column_run. apply column_loop_replay. Qed.

End ColumnFacts.

Lemma column_replay (fbuf : ImageData) (x height_ : number)
  (color : option Color) :
  column fbuf x height_ color =
  replay (fun p f => pixel f p color)
    (column_points (height fbuf) x height_) fbuf.
Proof. apply column_run_replay. Qed.





Lemma column_loop_rows (n : nat) (x : number) (h : Z) :
  forall i y log,
    0 <= i -> i + Z.of_nat n <= h -> h < 2 ^ 53 ->
    column_loop log_point n x (of_Z h) i y log =
    log ++ map (fun k => (x, of_Z (y + Z.of_nat k))) (seq 0 n).
Proof.
  induction n as [|n IH]; intros i y log Hi Hn Hh.
  - cbn. now rewrite app_nil_r.
  - cbn [column_loop]. rewrite of_Z_lt_mono by lia.
    rewrite IH by lia. unfold log_point. rewrite <- app_assoc.
    f_equal. cbn [seq map app]. rewrite Z.add_0_r. f_equal.
    rewrite <- (seq_shift n 0), map_map. apply map_ext.
    intros k. do 2 f_equal. lia.
Qed.


(** ** The renderer *)

Lemma flat_map_seq_shift {A : Type} (f : nat -> list A) (a n : nat) :
  flat_map f (seq (S a) n) = flat_map (fun k => f (S k)) (seq a n).
Proof.
  rewrite <- seq_shift, !flat_map_concat_map, map_map. reflexivity.
Qed.

Section RenderFacts.

Variables Math_sin Math_cos Math_tan : number -> number.
Variable ray : Position -> number -> number.

Lemma iteration_calls_shift (w h : Z) (pos : Position) (dir : number)
  (c : Z) (angle : number) (n : nat) :
  flat_map
    (fun k => iteration_calls Math_cos Math_tan ray w h pos dir
                (c + 1 + Z.of_nat k)
                (angle_after k w (angle + delta w)%num)) (seq 0 n) =
  flat_map
    (fun k => iteration_calls Math_cos Math_tan ray w h pos dir
                (c + Z.of_nat (S k)) (angle_after (S k) w angle)) (seq 0 n).
Proof.
  apply flat_map_ext. intros k. cbn [angle_after]. f_equal. lia.
Qed.

(** The log of the loop, iteration by iteration. *)
Lemma render_loop_calls (n : nat) :
  forall w h pos dir c angle log,
    render_loop Math_cos Math_tan ray
      (fun log x h => log ++ [DrawColumn x h])
      (fun log p a l c => log ++ [DrawLine p a l c])
      n w h pos dir c angle log =
    log ++ flat_map
             (fun k => iteration_calls Math_cos Math_tan ray w h pos dir
                         (c + Z.of_nat k) (angle_after k w angle))
             (seq 0 n).
Proof.
  induction n as [|n IH]; intros w h pos dir c angle log.
  - cbn. now rewrite app_nil_r.
  - cbn [render_loop]. rewrite IH.
    cbn [seq flat_map]. rewrite flat_map_seq_shift.
    unfold iteration_calls at 2. cbn [angle_after Z.of_nat].
    rewrite Z.add_0_r, iteration_calls_shift.
    destruct (strict_neq (ray pos angle) Infinity);
      rewrite <- ?app_assoc; reflexivity.
Qed.

Lemma render_calls_iterations (w h : Z) (pos : Position) (dir : number) :
  render_calls Math_cos Math_tan ray w h pos dir =
  flat_map
    (fun k => iteration_calls Math_cos Math_tan ray w h pos dir (Z.of_nat k)
                (angle_after k w (first_angle dir)))
    (seq 0 (Z.to_nat w)).
Proof.
  unfold render_calls, render_run. rewrite render_loop_calls.
  reflexivity.
Qed.

Lemma render_loop_replay (n : nat) :
  forall w h pos dir c angle fbuf,
    render_loop Math_cos Math_tan ray
      (fun f x h => column f (of_Z x) h None)
      (fun f p a l c => line Math_sin Math_cos f p (AngleLength a l (Some c)))
      n w h pos dir c angle fbuf =
    fold_left (perform Math_sin Math_cos)
      (flat_map
         (fun k => iteration_calls Math_cos Math_tan ray w h pos dir
                     (c + Z.of_nat k) (angle_after k w angle))
         (seq 0 n)) fbuf.
Proof.
  induction n as [|n IH]; intros w h pos dir c angle fbuf.
  - reflexivity.
  - cbn [render_loop seq flat_map]. rewrite IH, flat_map_seq_shift.
    rewrite fold_left_app. cbn [angle_after Z.of_nat].
    rewrite Z.add_0_r, iteration_calls_shift. f_equal.
    unfold iteration_calls.
    destruct (strict_neq (ray pos angle) Infinity); reflexivity.
Qed.

(** [render] performs its calls in order on the framebuffer. *)
Lemma render_with_replay (fbuf : ImageData) (pos : Position) (dir : number) :
  render_with Math_sin Math_cos Math_tan ray fbuf pos dir =
  fold_left (perform Math_sin Math_cos)
    (render_calls Math_cos Math_tan ray (width fbuf) (height fbuf) pos dir)
    fbuf.
Proof.
  unfold render_with, render_run.
  rewrite render_loop_replay, render_calls_iterations. reflexivity.
Qed.





Lemma render_loop_no_debug (n : nat) :
  forall w h pos dir c angle log log',
    filter is_column log = log' ->
    filter is_column
      (render_loop Math_cos Math_tan ray
         (fun log x h => log ++ [DrawColumn x h])
         (fun log p a l c => log ++ [DrawLine p a l c])
         n w h pos dir c angle log) =
    render_loop Math_cos Math_tan ray
      (fun log x h => log ++ [DrawColumn x h])
      (fun log _ _ _ _ => log)
      n w h pos dir c angle log'.
Proof.
  induction n as [|n IH]; intros w h pos dir c angle log log' Hlog.
  - exact Hlog.
  - cbn [render_loop]. apply IH.
    rewrite filter_app. cbn [filter is_column]. rewrite app_nil_r.
    destruct (strict_neq (ray pos angle) Infinity); [|exact Hlog].
    rewrite filter_app, Hlog. reflexivity.
Qed.

(** The calls of the renderer without the overlay are the column calls of
    the renderer, in the same order. *)
Lemma render_calls_columns (w h : Z) (pos : Position) (dir : number) :
  filter is_column (render_calls Math_cos Math_tan ray w h pos dir) =
  render_calls_no_debug Math_cos Math_tan ray w h pos dir.
Proof.
  unfold render_calls, render_calls_no_debug, render_run.
  now apply render_loop_no_debug.
Qed.

End RenderFacts.

Lemma cast_never_hits (Math_sin Math_cos : number -> number)
  (pos : Position) (angle : number) :
  cast Math_sin Math_cos pos angle = Infinity.
Proof. reflexivity. Qed.

(** With [cast] as it stands, [render] draws no column at all. *)
Lemma render_draws_no_column (Math_sin Math_cos Math_tan : number -> number)
  (w h : Z) (pos : Position) (dir : number) :
  filter is_column
    (render_calls Math_cos Math_tan (cast Math_sin Math_cos) w h pos dir) = [].
Proof.
  rewrite render_calls_iterations.
  induction (seq 0 (Z.to_nat w)) as [|k l IH]; [reflexivity|].
  cbn [flat_map]. rewrite filter_app, IH. reflexivity.
Qed.







(** * Further properties of the drawing module and of the renderer *)

(** ** Subtraction of integers

    The difference of two integers below [2^53] is computed without
    rounding: the aligned mantissas differ by a multiple of a power of two,
    which rounds to the double of the integer difference. *)

Lemma iter_pos_iter {A : Type} (f : A -> A) (n : positive) :
  forall x, iter_pos f n x = Pos.iter f x n.
Proof.
  induction n as [n IH|n IH|]; intros x; cbn [iter_pos Pos.iter].
  - now rewrite !IH, <- !Pos.iter_swap.
  - now rewrite !IH.
  - reflexivity.
Qed.

Lemma shr_1_even (q : positive) :
  shr_1 (Build_shr_record (Zpos (xO q)) false false) =
  Build_shr_record (Zpos q) false false.
Proof. reflexivity. Qed.

Lemma shr_iter_even (c : positive) :
  forall q,
    iter_pos shr_1 c (Build_shr_record (Zpos (Pos.iter xO q c)) false false) =
    Build_shr_record (Zpos q) false false.
Proof.
  intros q. rewrite iter_pos_iter. revert q.
  induction c as [|c IH] using Pos.peano_ind; intros q.
  - reflexivity.
  - rewrite Pos.iter_succ_r, Pos.iter_succ, shr_1_even. apply IH.
Qed.

Lemma scaled_positive (p m : positive) (n : Z) :
  0 <= n -> Zpos m = Zpos p * 2 ^ n ->
  Zpos (digits2_pos m) = Zpos (digits2_pos p) + n.
Proof.
  intros Hn Hm. destruct n as [|n|n]; try lia.
  - rewrite Z.mul_1_r in Hm. injection Hm as ->. lia.
  - rewrite <- Zpos_iter_xO in Hm. injection Hm as ->.
    rewrite digits2_pos_iter. lia.
Qed.

Lemma scaled_positive_split (p m : positive) (n : Z) (c : positive) :
  Zpos c <= n -> Zpos m = Zpos p * 2 ^ n ->
  exists q, m = Pos.iter xO q c /\ Zpos q = Zpos p * 2 ^ (n - Zpos c).
Proof.
  intros Hc Hm.
  assert (Hq : exists q, Zpos q = Zpos p * 2 ^ (n - Zpos c)).
  { destruct (n - Zpos c) as [|k|k] eqn:Hk; try lia.
    - exists p. lia.
    - exists (Pos.iter xO p k). apply Zpos_iter_xO. }
  destruct Hq as [q Hq]. exists q. split; [|exact Hq].
  assert (H : Zpos m = Zpos (Pos.iter xO q c)).
  { rewrite Zpos_iter_xO, Hq, Hm, <- Z.mul_assoc, <- Z.pow_add_r by lia.
    do 2 f_equal. lia. }
  now injection H.
Qed.

(** Rounding a multiple of a power of two that is an integer of at most
    53 bits gives the double of that integer. *)
Lemma binary_round_scaled (s : bool) (p mx : positive) (n : Z) :
  0 <= n -> Zpos mx = Zpos p * 2 ^ n -> Zpos (digits2_pos p) <= 53 ->
  binary_round prec emax s mx (- n) = binary_round prec emax s p 0.
Proof.
  intros Hn Hmx Hd.
  destruct (binary_round_int s p Hd) as (m & e & -> & He & Hm & Het).
  pose proof (scaled_positive p mx n Hn Hmx) as Hdig.
  pose proof (Pos2Z.is_pos (digits2_pos p)) as Hdp.
  unfold binary_round, shl_align.
  assert (Hf : fexp prec emax (Z.pos (digits2_pos mx) + - n) = e).
  { unfold fexp, emin, prec, emax. lia. }
  change (fexp prec emax (Z.add (Z.pos (digits2_pos mx)) (- n)))
    with (fexp prec emax (Z.pos (digits2_pos mx) + - n)).
  rewrite Hf.
  change (Z.sub e (- n)) with (e - - n).
  destruct (e - - n) as [|c|c] eqn:Hc.
  - assert (Hen : - n = e) by lia. rewrite Hen.
    assert (mx = m) as ->.
    { apply Pos2Z.inj. rewrite Hmx, Hm. do 2 f_equal. lia. }
    apply binary_round_aux_exact; lia.
  - destruct (scaled_positive_split p mx n c ltac:(lia) Hmx)
      as (q & -> & Hq).
    assert (q = m) as ->.
    { apply Pos2Z.inj. rewrite Hq, Hm. do 2 f_equal. lia. }
    assert (Hdm : Zpos (digits2_pos m) = 53).
    { rewrite (scaled_positive p m (- e)); lia. }
    unfold binary_round_aux at 1.
    assert (Hshr : shr_fexp prec emax (Zpos (Pos.iter xO m c)) (- n) loc_Exact =
                   (Build_shr_record (Zpos m) false false, e)).
    { unfold shr_fexp, shr.
      assert (Hk : fexp prec emax
                     (Zdigits2 (Z.pos (Pos.iter xO m c)) + - n) - - n = Zpos c).
      { unfold fexp, emin, prec, emax, Zdigits2.
        rewrite digits2_pos_iter. lia. }
      change (Z.sub (fexp prec emax
                (Z.add (Zdigits2 (Z.pos (Pos.iter xO m c))) (- n))) (- n))
        with (fexp prec emax
                (Zdigits2 (Z.pos (Pos.iter xO m c)) + - n) - - n).
      rewrite Hk. cbn [shr_record_of_loc].
      rewrite shr_iter_even. f_equal.
      change (Z.add (- n) (Z.pos c)) with (- n + Z.pos c). lia. }
    rewrite Hshr. cbn [shr_m loc_of_shr_record round_nearest_even].
    rewrite shr_fexp_exact by lia. cbn [shr_m].
    change (Z.leb e (Z.sub emax prec)) with (e <=? 971).
    destruct (Z.leb_spec e 971); [reflexivity|lia].
  - assert (Pos.iter xO mx c = m) as ->.
    { apply Pos2Z.inj. rewrite Zpos_iter_xO, Hmx, Hm, <- Z.mul_assoc,
        <- Z.pow_add_r by lia. do 2 f_equal. lia. }
    apply binary_round_aux_exact; [|lia].
    rewrite (scaled_positive p m (- e)); lia.
Qed.

Lemma of_Z_pos_shape (p : positive) :
  Zpos p < 2 ^ 53 ->
  exists m e, of_Z (Zpos p) = S754_finite false m e /\ e <= 0 /\
              Zpos m = Zpos p * 2 ^ (- e) /\
              e = Zpos (digits2_pos p) - 53.
Proof.
  intros Hp. apply (binary_round_int false p). now apply digits2_pos_small.
Qed.

Lemma digits2_pos_mono (p q : positive) :
  Zpos p <= Zpos q -> Zpos (digits2_pos p) <= Zpos (digits2_pos q).
Proof.
  intros Hpq.
  pose proof (digits2_pos_lower p) as Hl.
  pose proof (digits2_pos_upper q) as Hu.
  destruct (Z.le_gt_cases (Zpos (digits2_pos p)) (Zpos (digits2_pos q)))
    as [|Hgt]; [assumption|exfalso].
  assert (2 ^ Zpos (digits2_pos q) <= 2 ^ (Zpos (digits2_pos p) - 1))
    by (apply Z.pow_le_mono_r; lia).
  lia.
Qed.

(** Subtraction of integers is exact. *)
Lemma sub_of_Z (h k : Z) :
  0 <= k <= h -> h < 2 ^ 53 -> (of_Z h - of_Z k)%num = of_Z (h - k).
Proof.
  intros Hk Hh.
  destruct (Z.eq_dec k h) as [->|Hne].
  { rewrite Z.sub_diag. apply sub_self. lia. }
  destruct k as [|k|k]; try lia.
  { rewrite Z.sub_0_r. change (of_Z 0) with pzero.
    destruct (of_Z h) as [s|s| |s m e]; try reflexivity.
    destruct s; reflexivity. }
  destruct h as [|h|h]; try lia.
  destruct (of_Z_pos_shape h ltac:(lia)) as (mh & eh & Eh & Hehn & Hmh & Heh).
  destruct (of_Z_pos_shape k ltac:(lia)) as (mk & ek & Ek & Hekn & Hmk & Hek).
  pose proof (digits2_pos_mono k h ltac:(lia)) as Hdig.
  rewrite Eh, Ek. unfold Num.sub, SFsub.
  assert (Hmin : Z.min eh ek = ek) by lia.
  change (IntDef.Z.min eh ek) with (Z.min eh ek).
  rewrite Hmin.
  assert (Hk' : exists mh', fst (shl_align mh eh ek) = mh' /\
                            Zpos mh' = Zpos h * 2 ^ (- ek)).
  { unfold shl_align. change (Z.sub ek eh) with (ek - eh).
    destruct (ek - eh) as [|d|d] eqn:Hd; try lia.
    - exists mh. split; [reflexivity|]. rewrite Hmh. do 2 f_equal. lia.
    - exists (Pos.iter xO mh d). split; [reflexivity|].
      rewrite Zpos_iter_xO, Hmh, <- Z.mul_assoc, <- Z.pow_add_r by lia.
      do 2 f_equal. lia. }
  destruct Hk' as (mh' & -> & Hmh').
  assert (Hkk : fst (shl_align mk ek ek) = mk).
  { unfold shl_align. change (Z.sub ek ek) with (ek - ek).
    now rewrite Z.sub_diag. }
  rewrite Hkk. cbn [cond_Zopp].
  change (Z.sub (Z.pos mh') (Z.pos mk)) with (Z.pos mh' - Z.pos mk).
  assert (Hdiff : Z.pos mh' - Z.pos mk = (Zpos h - Zpos k) * 2 ^ (- ek)).
  { rewrite Hmh', Hmk. ring. }
  assert (Hpos : 0 < Zpos h - Zpos k) by lia.
  destruct (Zpos h - Zpos k) as [|p|p] eqn:Hp; try lia.
  assert (Hppos : 0 < Z.pos p * 2 ^ (- ek))
    by (apply Z.mul_pos_pos; [lia|apply Z.pow_pos_nonneg; lia]).
  destruct (Z.pos mh' - Z.pos mk) as [|mx|mx] eqn:Hmx; try lia.
  unfold of_Z. cbn [binary_normalize].
  replace ek with (- (- ek)) at 1 by lia.
  apply binary_round_scaled; [lia|exact Hdiff|].
  apply digits2_pos_small. lia.
Qed.

Lemma lt_asym (x y : number) : Num.lt x y = true -> Num.lt y x = false.
Proof.
  unfold Num.lt, SFltb.
  destruct x as [sx|sx| |sx mx ex], y as [sy|sy| |sy my ey];
    try destruct sx; try destruct sy; cbn [SFcompare]; try discriminate;
    try reflexivity.
  - rewrite (Z.compare_antisym ex ey).
    destruct (ex ?= ey) eqn:Hc; cbn [CompOpp]; try discriminate;
      try reflexivity.
    change (Pos.compare_cont Eq mx my) with (Pos.compare mx my).
    change (Pos.compare_cont Eq my mx) with (Pos.compare my mx).
    rewrite (Pos.compare_antisym mx my).
    destruct (Pos.compare mx my); cbn; try discriminate; reflexivity.
  - rewrite (Z.compare_antisym ex ey).
    destruct (ex ?= ey) eqn:Hc; cbn [CompOpp]; try discriminate;
      try reflexivity.
    change (Pos.compare_cont Eq mx my) with (Pos.compare mx my).
    change (Pos.compare_cont Eq my mx) with (Pos.compare my mx).
    rewrite (Pos.compare_antisym mx my).
    destruct (Pos.compare mx my); cbn; try discriminate; reflexivity.
Qed.

Lemma ToInt32_add_zero (x : number) (s : bool) :
  ToInt32 (x + S754_zero s)%num = ToInt32 x.
Proof.
  destruct x as [sx|sx| |sx m e]; try reflexivity.
  destruct sx, s; reflexivity.
Qed.

Lemma zero_mul_finite (x : number) :
  is_finite x = true -> exists s, (pzero * x)%num = S754_zero s.
Proof.
  destruct x as [s|s| |s m e]; try discriminate; intros _; eexists;
    reflexivity.
Qed.

Lemma wrap32_mod_256 (z : Z) : wrap32 z mod 256 = z mod 256.
Proof.
  unfold wrap32.
  pose proof (Z.div_mod (z + 2 ^ 31) (2 ^ 32) ltac:(lia)) as H.
  replace ((z + 2 ^ 31) mod 2 ^ 32 - 2 ^ 31)
    with (z + (- (2 ^ 24 * ((z + 2 ^ 31) / 2 ^ 32))) * 256) by lia.
  apply Z_mod_plus_full.
Qed.

(** ** Pixels *)

Lemma list_set_length (l : list Z) (n : nat) (v : Z) :
  List.length (list_set l n v) = List.length l.
Proof.
  revert n. induction l as [|h t IH]; intros [|n]; cbn; auto.
Qed.

Lemma list_set_nth (l : list Z) (n i : nat) (v d : Z) :
  nth i (list_set l n v) d =
  if (i =? n)%nat && (n <? List.length l)%nat then v else nth i l d.
Proof.
  revert n i. induction l as [|h t IH]; intros [|n] [|i]; cbn;
    rewrite ?andb_false_r; auto.
Qed.

Lemma list_set_beyond (l : list Z) (n : nat) (v : Z) :
  (List.length l <= n)%nat -> list_set l n v = l.
Proof.
  revert n. induction l as [|h t IH]; intros [|n] Hn; cbn in *; auto; try lia.
  f_equal. apply IH. lia.
Qed.

Lemma array_store_length (d : list Z) (i v : Z) :
  List.length (array_store d i v) = List.length d.
Proof.
  unfold array_store. destruct (i <? 0); [reflexivity|apply list_set_length].
Qed.

Lemma array_store_nth (d : list Z) (i v : Z) (k : nat) (dflt : Z) :
  nth k (array_store d i v) dflt =
  if (Z.of_nat k =? i) && (i <? Z.of_nat (List.length d))
  then Uint8Clamp v else nth k d dflt.
Proof.
  unfold array_store. destruct (Z.ltb_spec i 0) as [Hneg|Hpos].
  - destruct (Z.eqb_spec (Z.of_nat k) i); [lia|reflexivity].
  - rewrite list_set_nth.
    destruct (Nat.eqb_spec k (Z.to_nat i)), (Z.eqb_spec (Z.of_nat k) i);
      try lia; cbn [andb]; try reflexivity.
    destruct (Nat.ltb_spec (Z.to_nat i) (List.length d)),
      (Z.ltb_spec i (Z.of_nat (List.length d))); try lia; reflexivity.
Qed.

Lemma array_store_outside (d : list Z) (i v : Z) :
  i < 0 \/ Z.of_nat (List.length d) <= i -> array_store d i v = d.
Proof.
  intros Hi. unfold array_store. destruct (Z.ltb_spec i 0); [reflexivity|].
  apply list_set_beyond. lia.
Qed.

Lemma same_shape_refl (f : ImageData) : same_shape f f.
Proof. now unfold same_shape. Qed.

Lemma same_shape_trans (f g k : ImageData) :
  same_shape f g -> same_shape g k -> same_shape f k.
Proof.
  unfold same_shape. intros (H1 & H2 & H3) (H4 & H5 & H6).
  repeat split; congruence.
Qed.

Lemma pixel_shape (fbuf : ImageData) (p : Point) (color : option Color) :
  same_shape fbuf (pixel fbuf p color).
Proof.
  unfold same_shape, pixel, set_data. cbn [width height data].
  now rewrite !array_store_length.
Qed.

Lemma pixel_data_length (fbuf : ImageData) (p : Point) (color : option Color) :
  List.length (data (pixel fbuf p color)) = List.length (data fbuf).
Proof. apply (pixel_shape fbuf p color). Qed.

Lemma pixel_offset_pixel (fbuf : ImageData) (q p : Point)
  (color : option Color) :
  pixel_offset (pixel fbuf q color) p = pixel_offset fbuf p.
Proof. reflexivity. Qed.

Lemma image_ext (f g : ImageData) :
  width f = width g -> height f = height g ->
  List.length (data f) = List.length (data g) ->
  (forall k, nth k (data f) 0 = nth k (data g) 0) ->
  f = g.
Proof.
  destruct f as [wf hf df], g as [wg hg dg]. cbn. intros -> -> Hl Hn.
  f_equal. apply (nth_ext _ _ 0 0); [exact Hl|]. intros k _. apply Hn.
Qed.

(** The channel values of a framebuffer after [pixel], at every index. *)
Lemma pixel_nth (fbuf : ImageData) (p : Point) (color : option Color)
  (k : nat) :
  nth k (data (pixel fbuf p color)) 0 =
  if (pixel_offset fbuf p <=? Z.of_nat k) &&
     (Z.of_nat k <? pixel_offset fbuf p + 4) &&
     (Z.of_nat k <? Z.of_nat (List.length (data fbuf)))
  then Uint8Clamp
         (channel (Z.to_nat (Z.of_nat k - pixel_offset fbuf p))
            (or_default ColorDefault color))
  else nth k (data fbuf) 0.
Proof.
  unfold pixel, set_data. cbn [data].
  fold (pixel_offset fbuf p). generalize (pixel_offset fbuf p). intros o.
  rewrite !array_store_nth, !array_store_length.
  destruct (Z.ltb_spec (Z.of_nat k) (Z.of_nat (List.length (data fbuf))))
    as [Hin|Hout].
  2:{ rewrite andb_false_r.
      repeat match goal with
             | |- context [Z.eqb ?a ?b] => destruct (Z.eqb_spec a b)
             end; cbn [andb]; try reflexivity;
      match goal with
      | |- context [Z.ltb ?a ?b] => destruct (Z.ltb_spec a b)
      end; try reflexivity; lia. }
  rewrite andb_true_r.
  destruct (Z.eqb_spec (Z.of_nat k) (o + 3)) as [E3|N3].
  { rewrite <- E3.
    destruct (Z.ltb_spec (Z.of_nat k) (Z.of_nat (List.length (data fbuf))));
      [|lia].
    destruct (Z.leb_spec o (Z.of_nat k)), (Z.ltb_spec (Z.of_nat k) (o + 4));
      try lia.
    cbn [andb]. rewrite E3. replace (o + 3 - o) with 3 by ring.
    reflexivity. }
  cbn [andb].
  destruct (Z.eqb_spec (Z.of_nat k) (o + 2)) as [E2|N2].
  { rewrite <- E2.
    destruct (Z.ltb_spec (Z.of_nat k) (Z.of_nat (List.length (data fbuf))));
      [|lia].
    destruct (Z.leb_spec o (Z.of_nat k)), (Z.ltb_spec (Z.of_nat k) (o + 4));
      try lia.
    cbn [andb]. rewrite E2. replace (o + 2 - o) with 2 by ring.
    reflexivity. }
  cbn [andb].
  destruct (Z.eqb_spec (Z.of_nat k) (o + 1)) as [E1|N1].
  { rewrite <- E1.
    destruct (Z.ltb_spec (Z.of_nat k) (Z.of_nat (List.length (data fbuf))));
      [|lia].
    destruct (Z.leb_spec o (Z.of_nat k)), (Z.ltb_spec (Z.of_nat k) (o + 4));
      try lia.
    cbn [andb]. rewrite E1. replace (o + 1 - o) with 1 by ring.
    reflexivity. }
  cbn [andb].
  destruct (Z.eqb_spec (Z.of_nat k) (o + 0)) as [E0|N0].
  { rewrite <- E0.
    destruct (Z.ltb_spec (Z.of_nat k) (Z.of_nat (List.length (data fbuf))));
      [|lia].
    destruct (Z.leb_spec o (Z.of_nat k)), (Z.ltb_spec (Z.of_nat k) (o + 4));
      try lia.
    cbn [andb]. rewrite E0. replace (o + 0 - o) with 0 by ring.
    reflexivity. }
  cbn [andb].
  destruct (Z.leb_spec o (Z.of_nat k)), (Z.ltb_spec (Z.of_nat k) (o + 4));
    try lia; reflexivity.
Qed.

(** Property X1: [pixel] writes the four channels of the color, each
    converted by the clamped array, at the four indices from the offset
    [4 * (x + width * y)] on, as far as they fall inside the data, and
    leaves every other value of the data as it was. *)
Theorem pixel_writes_four_bytes (fbuf : ImageData) (p : Point)
  (color : option Color) (k : nat) :
  nth k (data (pixel fbuf p color)) 0 =
  if (pixel_offset fbuf p <=? Z.of_nat k) &&
     (Z.of_nat k <? pixel_offset fbuf p + 4) &&
     (Z.of_nat k <? Z.of_nat (List.length (data fbuf)))
  then Uint8Clamp
         (channel (Z.to_nat (Z.of_nat k - pixel_offset fbuf p))
            (or_default ColorDefault color))
  else nth k (data fbuf) 0.
Proof. exact (pixel_nth fbuf p color k). Qed.

(** Property X2: a pixel whose offset is negative or not below the length
    of the data is dropped: [pixel] returns the framebuffer unchanged and
    raises no error. *)
Theorem pixel_out_of_bounds (fbuf : ImageData) (p : Point)
  (color : option Color) :
  pixel_offset fbuf p < 0 \/
  Z.of_nat (List.length (data fbuf)) <= pixel_offset fbuf p ->
  pixel fbuf p color = fbuf.
Proof.
  intros Hout. unfold pixel, set_data.
  fold (pixel_offset fbuf p). set (o := pixel_offset fbuf p) in *.
  assert (Hmul : exists q, o = 4 * q) by (eexists; reflexivity).
  destruct Hmul as [q Hq]. clearbody o.
  do 4 (rewrite (array_store_outside (data fbuf)) by lia).
  destruct fbuf; reflexivity.
Qed.

Lemma pixel_out_of_bounds_witness :
  pixel frame4 (int_point (0, 4)) None = frame4.
Proof.
  apply (pixel_out_of_bounds frame4 (int_point (0, 4)) None).
  right. vm_compute. intros; discriminate.
Defined.

(** Property X3: [pixel] does not check its point against the width: a
    point [width] columns further right is the point one row further
    down. *)
Theorem pixel_wraps_rows (fbuf : ImageData) (x y : Z) (color : option Color) :
  - 2 ^ 31 <= x < 2 ^ 31 -> - 2 ^ 31 <= x + width fbuf < 2 ^ 31 ->
  - 2 ^ 31 <= y -> y + 1 < 2 ^ 31 ->
  pixel fbuf (int_point (x + width fbuf, y)) color =
  pixel fbuf (int_point (x, y + 1)) color.
Proof.
  intros Hx Hxw Hy Hy1. unfold pixel, int_point. cbn [fst snd].
  rewrite !ToInt32_of_Z_int32 by lia.
  replace (4 * (x + width fbuf + width fbuf * y))
    with (4 * (x + width fbuf * (y + 1))) by ring.
  reflexivity.
Qed.

Lemma pixel_wraps_rows_witness :
  pixel frame4 (int_point (1 + width frame4, 0)) None =
  pixel frame4 (int_point (1, 0 + 1)) None.
Proof.
  apply (pixel_wraps_rows frame4 1 0 None); cbn; lia.
Defined.

(** Property X4: the last write wins: plotting a point twice leaves what
    the second plot alone leaves. *)
Theorem pixel_overwrites (fbuf : ImageData) (p : Point)
  (c1 c2 : option Color) :
  pixel (pixel fbuf p c1) p c2 = pixel fbuf p c2.
Proof.
  apply image_ext; try reflexivity.
  - now rewrite !pixel_data_length.
  - intros k. rewrite !pixel_nth, pixel_offset_pixel, pixel_data_length.
    destruct ((pixel_offset fbuf p <=? Z.of_nat k) &&
              (Z.of_nat k <? pixel_offset fbuf p + 4) &&
              (Z.of_nat k <? Z.of_nat (List.length (data fbuf))));
      reflexivity.
Qed.

(** Property X5: plots at different offsets commute, whatever their
    colors. *)
Theorem pixel_commutes (fbuf : ImageData) (p q : Point)
  (c d : option Color) :
  pixel_offset fbuf p <> pixel_offset fbuf q ->
  pixel (pixel fbuf p c) q d = pixel (pixel fbuf q d) p c.
Proof.
  intros Hne. apply image_ext; try reflexivity.
  - now rewrite !pixel_data_length.
  - intros k. rewrite !pixel_nth, !pixel_offset_pixel, !pixel_data_length.
    assert (Ho : exists o1 o2, pixel_offset fbuf p = 4 * o1 /\
                               pixel_offset fbuf q = 4 * o2)
      by (do 2 eexists; split; reflexivity).
    destruct Ho as (o1 & o2 & H1 & H2). rewrite H1, H2 in *.
    destruct (Z.leb_spec (4 * o1) (Z.of_nat k)),
      (Z.ltb_spec (Z.of_nat k) (4 * o1 + 4)),
      (Z.leb_spec (4 * o2) (Z.of_nat k)),
      (Z.ltb_spec (Z.of_nat k) (4 * o2 + 4));
      cbn [andb]; try reflexivity; lia.
Qed.

Lemma pixel_commutes_witness :
  pixel (pixel frame4 (int_point (0, 0)) None) (int_point (1, 0))
    (Some (1, 2, 3, 4)) =
  pixel (pixel frame4 (int_point (1, 0)) (Some (1, 2, 3, 4)))
    (int_point (0, 0)) None.
Proof.
  apply (pixel_commutes frame4 (int_point (0, 0)) (int_point (1, 0)) None
           (Some (1, 2, 3, 4))).
  vm_compute. discriminate.
Defined.

(** ** Logs of points on a framebuffer *)

Lemma replay_pixel_shape (color : option Color) (log : list Point) :
  forall fbuf,
    same_shape fbuf (replay (fun p f => pixel f p color) log fbuf).
Proof.
  induction log as [|p log IH]; intros fbuf; cbn.
  - apply same_shape_refl.
  - eapply same_shape_trans; [apply (pixel_shape fbuf p color)|apply IH].
Qed.

Lemma plots_offset_pixel (fbuf : ImageData) (q : Point) (c : option Color)
  (log : list Point) (o : Z) :
  plots_offset (pixel fbuf q c) log o = plots_offset fbuf log o.
Proof. reflexivity. Qed.

(** The channel values of a framebuffer after a log of points has been
    plotted in one color: the values depend on the set of offsets plotted,
    not on their order or number. *)
Lemma replay_nth (color : option Color) (log : list Point) :
  forall fbuf k,
    nth k (data (replay (fun p f => pixel f p color) log fbuf)) 0 =
    if plots_offset fbuf log (4 * (Z.of_nat k / 4)) &&
       (Z.of_nat k <? Z.of_nat (List.length (data fbuf)))
    then Uint8Clamp
           (channel (Z.to_nat (Z.of_nat k mod 4))
              (or_default ColorDefault color))
    else nth k (data fbuf) 0.
Proof.
  induction log as [|q log IH]; intros fbuf k.
  - reflexivity.
  - cbn [replay fold_left]. unfold replay in IH. rewrite IH.
    rewrite plots_offset_pixel, pixel_data_length, pixel_nth.
    unfold plots_offset. cbn [existsb].
    assert (Ho : exists o, pixel_offset fbuf q = 4 * o)
      by (eexists; reflexivity).
    destruct Ho as [o Ho]. rewrite Ho.
    pose proof (Z.div_mod (Z.of_nat k) 4 ltac:(lia)) as Hdm.
    pose proof (Z.mod_pos_bound (Z.of_nat k) 4 ltac:(lia)) as Hmod.
    destruct (existsb (fun p => pixel_offset fbuf p =? 4 * (Z.of_nat k / 4))
                log) eqn:Hex.
    + rewrite orb_true_r. cbn [andb].
      destruct (Z.ltb_spec (Z.of_nat k) (Z.of_nat (List.length (data fbuf))));
        [reflexivity|].
      now rewrite andb_false_r.
    + rewrite orb_false_r. cbn [andb].
      destruct (Z.eqb_spec (4 * o) (4 * (Z.of_nat k / 4))) as [E|N].
      * destruct (Z.leb_spec (4 * o) (Z.of_nat k)),
          (Z.ltb_spec (Z.of_nat k) (4 * o + 4)); try lia.
        cbn [andb].
        destruct (Z.ltb_spec (Z.of_nat k)
                    (Z.of_nat (List.length (data fbuf)))); [|reflexivity].
        do 3 f_equal. lia.
      * destruct (Z.leb_spec (4 * o) (Z.of_nat k)),
          (Z.ltb_spec (Z.of_nat k) (4 * o + 4)); cbn [andb];
          try reflexivity; lia.
Qed.

Lemma plots_offset_ext (fbuf : ImageData) (l l' : list Point) (o : Z) :
  (forall p, In p l <-> In p l') ->
  plots_offset fbuf l o = plots_offset fbuf l' o.
Proof.
  intros Hin. unfold plots_offset.
  apply eq_true_iff_eq. rewrite !existsb_exists.
  split; intros (p & Hp & Ho); exists p; (split; [apply Hin, Hp|exact Ho]).
Qed.

(** Two logs with the same points, plotted in one color, leave the same
    framebuffer. *)
Lemma replay_same_points (color : option Color) (l l' : list Point)
  (fbuf : ImageData) :
  (forall p, In p l <-> In p l') ->
  replay (fun p f => pixel f p color) l fbuf =
  replay (fun p f => pixel f p color) l' fbuf.
Proof.
  intros Hin.
  pose proof (replay_pixel_shape color l fbuf) as (Hw & Hh & Hl).
  pose proof (replay_pixel_shape color l' fbuf) as (Hw' & Hh' & Hl').
  apply image_ext; try congruence.
  intros k. rewrite !replay_nth, (plots_offset_ext fbuf l l') by assumption.
  reflexivity.
Qed.

(** ** Bresenham's lines in closed form *)

Lemma round_div_step (dv D i j e : Z) :
  0 < D -> 0 <= dv <= D ->
  e = 2 * dv * (i + 1) - D * (2 * j + 1) ->
  2 * dv - 2 * D <= e < 2 * dv ->
  round_div (dv * (i + 1)) D = if e >=? 0 then j + 1 else j.
Proof.
  intros HD Hdv He Hb. unfold round_div.
  destruct (Z.geb_spec e 0).
  - symmetry. apply (Z.div_unique_pos _ _ _ (2 * (dv * (i + 1)) + D - 2 * D * (j + 1))); lia.
  - symmetry. apply (Z.div_unique_pos _ _ _ (2 * (dv * (i + 1)) + D - 2 * D * j)); lia.
Qed.

Lemma bresenham_loop_raster (major : bool) (u0 v0 su sv D dv : Z) (n : nat) :
  forall i j e log,
    0 <= i -> i + Z.of_nat n = D -> 0 <= dv <= D ->
    e = 2 * dv * (i + 1) - D * (2 * j + 1) ->
    (0 < D -> 2 * dv - 2 * D <= e < 2 * dv) ->
    bresenham_loop log_point n major (Z.of_nat n)
      (u0 + su * i) (v0 + sv * j) e su sv (2 * dv - 2 * D) (2 * dv) log =
    log ++
    map (fun k => axis_point major (u0 + su * (i + 1 + Z.of_nat k))
                    (v0 + sv * round_div (dv * (i + 1 + Z.of_nat k)) D))
      (seq 0 n).
Proof.
  unfold axis_point.
  destruct major;
  (induction n as [|n IH]; intros i j e log Hi Hn Hdv He Hb;
   [cbn; now rewrite app_nil_r|]).
  all: cbn [bresenham_loop].
  all: destruct (Z.eqb_spec (Z.of_nat (S n)) 0) as [|_]; [lia|].
  all: assert (HD : 0 < D) by lia; specialize (Hb HD).
  all: pose proof (round_div_step dv D i j e HD Hdv He Hb) as Hr.
  all: replace (Z.of_nat (S n) - 1) with (Z.of_nat n) by lia.
  all: cbn [seq map]; rewrite <- (seq_shift n 0), map_map.
  all: rewrite Z.add_0_r.
  all: replace (u0 + su * i + su) with (u0 + su * (i + 1)) by ring.
  all: destruct (Z.geb_spec e 0) as [Hge|Hlt].
  all: try replace (v0 + sv * j + sv) with (v0 + sv * (j + 1)) by ring.
  all: first [rewrite (IH (i + 1) (j + 1)) by lia
             |rewrite (IH (i + 1) j) by lia].
  all: unfold log_point; rewrite <- app_assoc; f_equal.
  all: cbn [app]; rewrite Hr; f_equal.
  all: apply map_ext; intros k.
  all: replace (i + 1 + 1 + Z.of_nat k) with (i + 1 + Z.of_nat (S k)) by lia.
  all: reflexivity.
Qed.

Lemma round_div_0 (D : Z) : 0 <= D -> round_div 0 D = 0.
Proof.
  intros HD. unfold round_div. rewrite Z.mul_0_r, Z.add_0_l.
  destruct (Z.eq_dec D 0) as [->|Hne]; [reflexivity|].
  apply Z.div_small. lia.
Qed.

(** The log of the whole run, from the initial values of the loop. *)
Lemma bresenham_run_raster (major : bool) (u0 v0 su sv D dv : Z) (a : Z * Z) :
  0 <= dv <= D ->
  int_point a = axis_point major u0 v0 ->
  bresenham_loop log_point (Z.to_nat D) major D u0 v0 (2 * dv - D) su sv
    (2 * dv - 2 * D) (2 * dv) (log_point (int_point a) []) =
  raster major u0 v0 su sv D dv.
Proof.
  intros Hdv Ha. unfold raster.
  pose proof (bresenham_loop_raster major u0 v0 su sv D dv (Z.to_nat D)
                0 0 (2 * dv - D) (log_point (int_point a) [])) as H.
  rewrite Z2Nat.id in H by lia.
  replace (u0 + su * 0) with u0 in H by ring.
  replace (v0 + sv * 0) with v0 in H by ring.
  rewrite H by lia. clear H.
  unfold log_point. cbn [app seq map]. change (Z.of_nat 0) with 0.
  rewrite !Z.mul_0_r, round_div_0, Z.mul_0_r, !Z.add_0_r by lia.
  rewrite Ha. f_equal.
  rewrite <- (seq_shift _ 0), map_map. apply map_ext. intros k.
  replace (0 + 1 + Z.of_nat k) with (Z.of_nat (S k)) by lia. reflexivity.
Qed.

Lemma raster_flat (major : bool) (u0 v0 su sv sv' D : Z) :
  0 <= D ->
  raster major u0 v0 su sv D 0 = raster major u0 v0 su sv' D 0.
Proof.
  intros HD. unfold raster. apply map_ext. intros k.
  rewrite Z.mul_0_l, round_div_0, !Z.mul_0_r by assumption. reflexivity.
Qed.

Lemma bresenham_points_ideal (a b : Point) :
  bresenham_points a b = ideal_points a b.
Proof.
  unfold bresenham_points, bresenham_run, bresenham_setup, ideal_points,
    ordered_endpoints, trunc_point.
  cbn [fst snd].
  set (ax := ToInt32 (fst a)). set (ay := ToInt32 (snd a)).
  set (bx := ToInt32 (fst b)). set (by_ := ToInt32 (snd b)).
  clearbody ax ay bx by_.
  assert (Hgen : forall px py qx qy, py <= qy ->
    (let
     '(a0, (major, du, u, v, e, su, sv, dv2mdu2, dv2)) :=
      let
      '(u, v, du, dv, su, sv, dx) :=
       if qx - px >? 0
       then
        if qx - px >? qy - py
        then (px, py, qx - px, qy - py, 1, 1, qx - px)
        else (py, px, qy - py, qx - px, 1, 1, qx - px)
       else
        if - (qx - px) >? qy - py
        then (px, py, - (qx - px), qy - py, -1, 1, - (qx - px))
        else (py, px, qy - py, - (qx - px), 1, -1, - (qx - px)) in
       (px, py, (dx >? qy - py, du, u, v, 2 * dv - du, su, sv,
                 2 * dv - 2 * du, 2 * dv)) in
      bresenham_loop log_point (Z.to_nat du) major du u v e su sv dv2mdu2
        dv2 (log_point (int_point a0) [])) =
    (if Z.abs (qx - px) >? qy - py
     then raster true px py (Z.sgn (qx - px)) 1 (Z.abs (qx - px)) (qy - py)
     else raster false py px 1 (Z.sgn (qx - px)) (qy - py) (Z.abs (qx - px)))).
  { intros px py qx qy Hy.
    destruct (Z.gtb_spec (qx - px) 0) as [Hpos|Hneg].
    - rewrite Z.abs_eq, Z.sgn_pos by lia.
      destruct (Z.gtb_spec (qx - px) (qy - py)) as [Hmaj|Hmin].
      + destruct (Z.gtb_spec (qx - px) (qy - py)); [|lia].
        apply bresenham_run_raster; [lia|reflexivity].
      + destruct (Z.gtb_spec (qx - px) (qy - py)); [lia|].
        apply bresenham_run_raster; [lia|reflexivity].
    - rewrite Z.abs_neq by lia.
      destruct (Z.gtb_spec (- (qx - px)) (qy - py)) as [Hmaj|Hmin].
      + destruct (Z.gtb_spec (- (qx - px)) (qy - py)); [|lia].
        rewrite Z.sgn_neg by lia.
        apply bresenham_run_raster; [lia|reflexivity].
      + destruct (Z.gtb_spec (- (qx - px)) (qy - py)); [lia|].
        rewrite bresenham_run_raster; [|lia|reflexivity].
        destruct (Z.eq_dec (qx - px) 0) as [H0|Hne].
        * rewrite H0. cbn [Z.opp]. apply raster_flat. lia.
        * now rewrite Z.sgn_neg by lia. }
  destruct (Z.gtb_spec ay by_) as [Hswap|Hkeep]; cbn [fst snd];
    apply Hgen; lia.
Qed.

(** Property X6: the points [bresenham] plots, in closed form.  From the
    endpoint on the upper row, the major coordinate moves by one per point
    and the minor coordinate is the ideal one rounded to the nearest
    integer, [(2 * dv * k + D) / (2 * D)] for the [k]-th point of a line
    of major extent [D] and minor extent [dv]: the error term of the loop
    computes this rounding. *)
Theorem bresenham_closed_form (a b : Point) :
  bresenham_points a b = ideal_points a b.
Proof. exact (bresenham_points_ideal a b). Qed.

Lemma round_div_bounds (dv D k : Z) :
  0 <= dv <= D -> 0 <= k <= D ->
  0 <= round_div (dv * k) D <= dv /\
  - D <= 2 * (dv * k) - 2 * D * round_div (dv * k) D /\
  (0 < D -> 2 * (dv * k) - 2 * D * round_div (dv * k) D < D).
Proof.
  intros Hdv Hk. unfold round_div.
  destruct (Z.eq_dec D 0) as [->|Hne].
  - assert (dv = 0) by lia. assert (k = 0) by lia. subst. cbn. lia.
  - assert (HD : 0 < 2 * D) by lia.
    pose proof (Z.div_mod (2 * (dv * k) + D) (2 * D) ltac:(lia)) as Hdm.
    pose proof (Z.mod_pos_bound (2 * (dv * k) + D) (2 * D) HD) as Hmod.
    set (j := (2 * (dv * k) + D) / (2 * D)) in *.
    set (r := (2 * (dv * k) + D) mod (2 * D)) in *.
    clearbody j r.
    assert (0 <= dv * k) by nia.
    assert (dv * k <= dv * D) by nia.
    assert (0 <= j) by nia.
    assert (j <= dv) by nia.
    repeat split; try lia.
Qed.

Lemma round_div_full (dv D : Z) :
  0 <= dv <= D -> round_div (dv * D) D = dv.
Proof.
  intros Hdv. unfold round_div.
  destruct (Z.eq_dec D 0) as [->|Hne].
  - assert (dv = 0) by lia. subst. reflexivity.
  - symmetry. apply (Z.div_unique_pos _ _ _ D); lia.
Qed.

Lemma raster_length (major : bool) (u0 v0 su sv D dv : Z) :
  List.length (raster major u0 v0 su sv D dv) = S (Z.to_nat D).
Proof. unfold raster. now rewrite length_map, length_seq. Qed.

Lemma raster_head (major : bool) (u0 v0 su sv D dv : Z) :
  0 <= D ->
  hd_error (raster major u0 v0 su sv D dv) = Some (axis_point major u0 v0).
Proof.
  intros HD. unfold raster. cbn [seq map hd_error]. change (Z.of_nat 0) with 0.
  now rewrite !Z.mul_0_r, round_div_0, Z.mul_0_r, !Z.add_0_r.
Qed.

Lemma raster_last (major : bool) (u0 v0 su sv D dv : Z) (d : Point) :
  0 <= dv <= D ->
  last (raster major u0 v0 su sv D dv) d =
  axis_point major (u0 + su * D) (v0 + sv * dv).
Proof.
  intros Hdv. unfold raster. rewrite seq_S, map_app. cbn [map].
  rewrite last_last.
  cbn [Nat.add]. rewrite Z2Nat.id by lia. now rewrite round_div_full.
Qed.

Lemma sgn_mul_abs (z : Z) : Z.sgn z * Z.abs z = z.
Proof. destruct z; reflexivity. Qed.

(** Property X7: a line has one point per step of its longer extent, plus
    one; it starts at the truncated endpoint on the upper row (the first
    argument when both are on one row) and ends at the other truncated
    endpoint. *)
Theorem bresenham_endpoints (a b : Point) :
  List.length (bresenham_points a b) =
    S (Z.to_nat (Z.max (Z.abs (fst (trunc_point b) - fst (trunc_point a)))
                   (Z.abs (snd (trunc_point b) - snd (trunc_point a))))) /\
  hd_error (bresenham_points a b) =
    Some (int_point (fst (ordered_endpoints a b))) /\
  last (bresenham_points a b) (int_point (0, 0)) =
    int_point (snd (ordered_endpoints a b)).
Proof.
  rewrite bresenham_points_ideal.
  unfold ideal_points, ordered_endpoints.
  destruct (trunc_point a) as [ax ay], (trunc_point b) as [bx by_].
  cbn [fst snd].
  destruct (Z.gtb_spec ay by_) as [Hswap|Hkeep]; cbn [fst snd];
    match goal with
    | |- context [Z.abs ?dx >? ?dy] =>
        destruct (Z.gtb_spec (Z.abs dx) dy) as [Hmaj|Hmin]
    end;
    rewrite raster_length, raster_head, raster_last by lia;
    unfold axis_point; rewrite ?sgn_mul_abs;
    (split; [f_equal; f_equal; lia|split; [reflexivity|]]);
    f_equal; f_equal; lia.
Qed.

Lemma raster_in (major : bool) (u0 v0 su sv D dv : Z) (pt : Point) :
  0 <= dv <= D ->
  In pt (raster major u0 v0 su sv D dv) ->
  exists i j,
    pt = axis_point major (u0 + su * i) (v0 + sv * j) /\
    0 <= i <= D /\ 0 <= j <= dv /\
    - D <= 2 * (dv * i) - 2 * D * j /\
    (0 < D -> 2 * (dv * i) - 2 * D * j < D).
Proof.
  intros Hdv Hin. unfold raster in Hin.
  apply in_map_iff in Hin. destruct Hin as (k & <- & Hk).
  apply in_seq in Hk.
  exists (Z.of_nat k), (round_div (dv * Z.of_nat k) D).
  split; [reflexivity|]. split; [lia|].
  apply round_div_bounds; lia.
Qed.

(** Property X8: every plotted point has integer coordinates inside the
    bounding box of the truncated endpoints and lies within half a step of
    the ideal line: twice the absolute value of its cross product with the
    direction of the line is at most the longer extent. *)
Theorem bresenham_accuracy (a b pt : Point) :
  In pt (bresenham_points a b) ->
  exists x y,
    pt = int_point (x, y) /\
    Z.min (fst (fst (ordered_endpoints a b)))
      (fst (snd (ordered_endpoints a b))) <= x <=
    Z.max (fst (fst (ordered_endpoints a b)))
      (fst (snd (ordered_endpoints a b))) /\
    snd (fst (ordered_endpoints a b)) <= y <=
    snd (snd (ordered_endpoints a b)) /\
    2 * Z.abs
          ((x - fst (fst (ordered_endpoints a b))) *
           (snd (snd (ordered_endpoints a b)) -
            snd (fst (ordered_endpoints a b))) -
           (y - snd (fst (ordered_endpoints a b))) *
           (fst (snd (ordered_endpoints a b)) -
            fst (fst (ordered_endpoints a b)))) <=
    Z.max (Z.abs (fst (snd (ordered_endpoints a b)) -
                  fst (fst (ordered_endpoints a b))))
      (snd (snd (ordered_endpoints a b)) -
       snd (fst (ordered_endpoints a b))).
Proof.
  rewrite bresenham_points_ideal. unfold ideal_points.
  assert (Hord : snd (fst (ordered_endpoints a b)) <=
                 snd (snd (ordered_endpoints a b))).
  { unfold ordered_endpoints.
    destruct (Z.gtb_spec (snd (trunc_point a)) (snd (trunc_point b)));
      cbn [fst snd]; lia. }
  destruct (ordered_endpoints a b) as [[px py] [qx qy]]. cbn [fst snd] in *.
  set (DX := qx - px). set (DY := qy - py).
  assert (HDX : qx = px + DX) by (subst DX; lia).
  assert (HDY : qy = py + DY) by (subst DY; lia).
  assert (HDY0 : 0 <= DY) by (subst DY; lia).
  clearbody DX DY. subst qx qy.
  destruct (Z.gtb_spec (Z.abs DX) DY) as [Hmaj|Hmin]; intros Hin;
    apply raster_in in Hin; try lia;
    destruct Hin as (i & j & -> & Hi & Hj & Hlo & Hhi);
    unfold axis_point.
  - exists (px + Z.sgn DX * i), (py + 1 * j). split; [reflexivity|].
    specialize (Hhi ltac:(lia)).
    destruct (Z.lt_trichotomy DX 0) as [Hs|[Hs|Hs]].
    + rewrite Z.sgn_neg, Z.abs_neq in * by lia.
      repeat split; try lia; try nia;
        rewrite Z.max_l by lia; apply Z.abs_le; nia.
    + subst DX. cbn in *. lia.
    + rewrite Z.sgn_pos, Z.abs_eq in * by lia.
      repeat split; try lia; try nia;
        rewrite Z.max_l by lia; apply Z.abs_le; nia.
  - exists (px + Z.sgn DX * j), (py + 1 * i). split; [reflexivity|].
    destruct (Z.lt_trichotomy DX 0) as [Hs|[Hs|Hs]].
    + rewrite Z.sgn_neg, Z.abs_neq in * by lia.
      specialize (Hhi ltac:(lia)).
      repeat split; try lia; try nia;
        rewrite Z.max_r by lia; apply Z.abs_le; nia.
    + subst DX. cbn [Z.sgn Z.abs] in *.
      assert (j = 0) by lia. subst j.
      repeat split; try lia;
        rewrite Z.max_r by lia;
        replace ((px + 0 * 0 - px) * DY - (py + 1 * i - py) * (px + 0 - px))
          with 0 by ring;
        cbn; lia.
    + rewrite Z.sgn_pos, Z.abs_eq in * by lia.
      specialize (Hhi ltac:(lia)).
      repeat split; try lia; try nia;
        rewrite Z.max_r by lia; apply Z.abs_le; nia.
Qed.

Lemma bresenham_accuracy_witness :
  In (int_point (2, 1))
    (bresenham_points (int_point (0, 0)) (int_point (7, 3))) /\
  exists x y,
    int_point (2, 1) = int_point (x, y) /\
    0 <= x <= 7 /\ 0 <= y <= 3 /\
    2 * Z.abs ((x - 0) * (3 - 0) - (y - 0) * (7 - 0)) <= 7.
Proof.
  assert (Hin : In (int_point (2, 1))
                  (bresenham_points (int_point (0, 0)) (int_point (7, 3))))
    by (vm_compute; tauto).
  split; [exact Hin|].
  exact (bresenham_accuracy (int_point (0, 0)) (int_point (7, 3))
           (int_point (2, 1)) Hin).
Defined.

Lemma round_div_same (D k : Z) :
  0 <= k <= D -> round_div (D * k) D = k.
Proof.
  intros Hk. unfold round_div.
  destruct (Z.eq_dec D 0) as [->|Hne].
  - assert (k = 0) by lia. subst. reflexivity.
  - symmetry. apply (Z.div_unique_pos _ _ _ D); lia.
Qed.

(** Property X9: horizontal, vertical and diagonal lines are exact: the
    [k]-th point is the first endpoint moved [k] steps in the direction of
    the line. *)
Theorem principal_directions_exact (a b : Point) :
  fst (snd (ordered_endpoints a b)) = fst (fst (ordered_endpoints a b)) \/
  snd (snd (ordered_endpoints a b)) = snd (fst (ordered_endpoints a b)) \/
  Z.abs (fst (snd (ordered_endpoints a b)) -
         fst (fst (ordered_endpoints a b))) =
  snd (snd (ordered_endpoints a b)) - snd (fst (ordered_endpoints a b)) ->
  bresenham_points a b =
  map (fun k =>
         int_point
           (fst (fst (ordered_endpoints a b)) +
            Z.sgn (fst (snd (ordered_endpoints a b)) -
                   fst (fst (ordered_endpoints a b))) * Z.of_nat k,
            snd (fst (ordered_endpoints a b)) +
            Z.sgn (snd (snd (ordered_endpoints a b)) -
                   snd (fst (ordered_endpoints a b))) * Z.of_nat k))
    (seq 0
       (S (Z.to_nat
             (Z.max (Z.abs (fst (snd (ordered_endpoints a b)) -
                            fst (fst (ordered_endpoints a b))))
                (snd (snd (ordered_endpoints a b)) -
                 snd (fst (ordered_endpoints a b))))))).
Proof.
  rewrite bresenham_points_ideal. unfold ideal_points.
  assert (Hord : snd (fst (ordered_endpoints a b)) <=
                 snd (snd (ordered_endpoints a b))).
  { unfold ordered_endpoints.
    destruct (Z.gtb_spec (snd (trunc_point a)) (snd (trunc_point b)));
      cbn [fst snd]; lia. }
  destruct (ordered_endpoints a b) as [[px py] [qx qy]]. cbn [fst snd] in *.
  set (DX := qx - px). set (DY := qy - py).
  assert (HDX : qx = px + DX) by (subst DX; lia).
  assert (HDY : qy = py + DY) by (subst DY; lia).
  assert (HDY0 : 0 <= DY) by (subst DY; lia).
  clearbody DX DY. subst qx qy. intros Hdir.
  assert (Hdir' : DX = 0 \/ DY = 0 \/ Z.abs DX = DY) by lia. clear Hdir.
  unfold raster, axis_point.
  destruct (Z.gtb_spec (Z.abs DX) DY) as [Hmaj|Hmin].
  - assert (DY = 0) by lia. subst DY.
    rewrite Z.max_l by lia. apply map_ext. intros k.
    rewrite Z.mul_0_l, round_div_0 by lia. cbn [Z.sgn].
    do 2 f_equal; ring.
  - rewrite Z.max_r by lia. apply map_ext_in. intros k Hk.
    apply in_seq in Hk.
    destruct (Z.eq_dec DX 0) as [->|Hne].
    + cbn [Z.abs Z.sgn]. rewrite !Z.mul_0_l.
      destruct (Z.eq_dec DY 0) as [->|HneY].
      * assert (k = 0%nat) by lia. subst k. reflexivity.
      * rewrite Z.sgn_pos by lia. do 2 f_equal; ring.
    + assert (Z.abs DX = DY) as -> by lia.
      rewrite round_div_same by lia.
      rewrite (Z.sgn_pos DY) by lia. do 2 f_equal; ring.
Qed.

Lemma principal_directions_exact_witness :
  bresenham_points (int_point (0, 0)) (int_point (-5, 5)) =
  map (fun k => int_point (0 + -1 * Z.of_nat k, 0 + 1 * Z.of_nat k))
    (seq 0 6).
Proof.
  apply (principal_directions_exact (int_point (0, 0)) (int_point (-5, 5))).
  vm_compute. right. right. reflexivity.
Defined.

(** Property X10: [bresenham] sees its endpoints only through their
    conversion to 32-bit integers: the fractions of the coordinates play
    no role. *)
Theorem bresenham_truncates (a b : Point) :
  bresenham_points a b =
  bresenham_points (int_point (trunc_point a)) (int_point (trunc_point b)).
Proof.
  unfold bresenham_points, bresenham_run, bresenham_setup, int_point,
    trunc_point.
  cbn [fst snd]. now rewrite !ToInt32_idem.
Qed.

Lemma points_symmetric (a b p : Point) :
  In p (bresenham_points a b) <-> In p (bresenham_points b a).
Proof.
  destruct (Z.eq_dec (snd (trunc_point a)) (snd (trunc_point b))) as [Heq|Hne].
  - rewrite (horizontal_points a b) by assumption.
    rewrite (horizontal_points b a) by (symmetry; assumption).
    rewrite Heq.
    split; intros (x & Hx & ->); exists x; (split; [tauto|reflexivity]).
  - rewrite !bresenham_points_ideal. unfold ideal_points, ordered_endpoints.
    destruct (Z.gtb_spec (snd (trunc_point a)) (snd (trunc_point b))),
      (Z.gtb_spec (snd (trunc_point b)) (snd (trunc_point a)));
      try lia; reflexivity.
Qed.

(** Property X11: drawing a line from [a] to [b] and from [b] to [a]
    leaves the same framebuffer, for every framebuffer, pair of points and
    color. *)
Theorem line_symmetric_framebuffer (Math_sin Math_cos : number -> number)
  (fbuf : ImageData) (a b : Point) (color : option Color) :
  line Math_sin Math_cos fbuf a (TwoPoints b color) =
  line Math_sin Math_cos fbuf b (TwoPoints a color).
Proof.
  rewrite !line_two_points_replay.
  apply replay_same_points. intros p. apply points_symmetric.
Qed.

(** Property X12: a line changes only the pixels of its points.  After
    [line], a channel value of the data is the channel of the color when
    its pixel is the pixel of one of the points of the line, and is the
    value from before the call otherwise. *)
Theorem line_writes_only_its_pixels (Math_sin Math_cos : number -> number)
  (fbuf : ImageData) (a b : Point) (color : option Color) (k : nat) :
  nth k (data (line Math_sin Math_cos fbuf a (TwoPoints b color))) 0 =
  if plots_offset fbuf (bresenham_points a b) (4 * (Z.of_nat k / 4)) &&
     (Z.of_nat k <? Z.of_nat (List.length (data fbuf)))
  then Uint8Clamp
         (channel (Z.to_nat (Z.of_nat k mod 4))
            (or_default ColorDefault color))
  else nth k (data fbuf) 0.
Proof.
  rewrite line_two_points_replay.
  apply (replay_nth (Some (or_default ColorDefault color))).
Qed.

Lemma bresenham_points_trunc (a a' b b' : Point) :
  trunc_point a = trunc_point a' -> trunc_point b = trunc_point b' ->
  bresenham_points a b = bresenham_points a' b'.
Proof.
  unfold trunc_point. intros Ha Hb.
  injection Ha as Ha1 Ha2. injection Hb as Hb1 Hb2.
  unfold bresenham_points, bresenham_run, bresenham_setup. cbn [fst snd].
  now rewrite Ha1, Ha2, Hb1, Hb2.
Qed.

(** Property X13: the angle and length form of [line] with length zero
    plots the origin alone, whatever the angle, as long as the sine and the
    cosine of the angle are finite numbers. *)
Theorem line_of_length_zero (Math_sin Math_cos : number -> number)
  (fbuf : ImageData) (origin_ : Point) (angle : number)
  (color : option Color) :
  is_finite (Math_cos angle) = true -> is_finite (Math_sin angle) = true ->
  line Math_sin Math_cos fbuf origin_ (AngleLength angle pzero color) =
  pixel fbuf origin_ color.
Proof.
  intros Hc Hs. unfold line.
  destruct (zero_mul_finite _ Hc) as [sc Ec].
  destruct (zero_mul_finite _ Hs) as [ss Es].
  rewrite Ec, Es. cbn [Math_floor].
  rewrite bresenham_replay.
  rewrite (bresenham_points_trunc origin_ origin_ _ origin_);
    [|reflexivity|unfold trunc_point; cbn [fst snd];
                  now rewrite !ToInt32_add_zero].
  rewrite bresenham_points_same. cbn [replay fold_left].
  rewrite pixel_trunc. unfold pixel. destruct color; reflexivity.
Qed.

Lemma line_of_length_zero_witness :
  is_finite (poly_cos (of_Z 1)) = true /\
  line poly_cos poly_cos frame4 (of_Z 1, of_Z 2)
    (AngleLength (of_Z 1) pzero None) =
  pixel frame4 (of_Z 1, of_Z 2) None.
Proof.
  assert (H : is_finite (poly_cos (of_Z 1)) = true) by reflexivity.
  split; [exact H|].
  exact (line_of_length_zero poly_cos poly_cos frame4 (of_Z 1, of_Z 2)
           (of_Z 1) None H H).
Defined.


(** ** Columns *)

Lemma column_loop_run (x height_ : number) (fuel : nat) :
  forall i y log,
  exists n, (n <= fuel)%nat /\
    column_loop log_point fuel x height_ i y log =
    log ++ map (fun k => (x, of_Z (y + Z.of_nat k))) (seq 0 n).
Proof.
  induction fuel as [|fuel IH]; intros i y log.
  - exists 0%nat. split; [lia|]. cbn. now rewrite app_nil_r.
  - cbn [column_loop]. destruct (Num.lt (of_Z i) height_).
    + destruct (IH (i + 1) (y + 1) (log_point (x, of_Z y) log))
        as (n & Hn & ->).
      exists (S n). split; [lia|].
      unfold log_point. rewrite <- app_assoc. f_equal.
      cbn [seq map app]. rewrite Z.add_0_r. f_equal.
      rewrite <- (seq_shift n 0), map_map. apply map_ext.
      intros k. do 2 f_equal. lia.
    + exists 0%nat. split; [lia|]. cbn. now rewrite app_nil_r.
Qed.

(** Once its fuel covers the height of the framebuffer, the loop of
    [column] plots the points of [column]: it has ended by its own test. *)
Lemma column_points_fuel_enough (fuel : nat) (h : Z) (x height_ : number) :
  0 <= h -> (Z.to_nat h <= fuel)%nat ->
  column_points_fuel fuel h x height_ = column_points h x height_.
Proof.
  intros Hh Hfuel. unfold column_points_fuel, column_points, column_run.
  replace fuel with (Z.to_nat h + (fuel - Z.to_nat h))%nat by lia.
  now apply column_loop_fuel.
Qed.

(** Property X14: whatever the height asked for, [column] plots a run of
    at most [fbuf.height] pixels, all in column [x] and on consecutive rows
    downwards from the row [(fbuf.height - height) >> 1], where [height]
    is the height after the clamp.  The run is the same however many
    iterations the loop is allowed beyond [fbuf.height]: after the clamp
    the loop ends by its own test. *)
Theorem column_points_run (h : Z) (x height_ : number) :
  0 <= h ->
  exists n, (n <= Z.to_nat h)%nat /\
    forall fuel, (Z.to_nat h <= fuel)%nat ->
      column_points_fuel fuel h x height_ =
      map (fun k =>
             (x, of_Z (sar (ToInt32 (of_Z h - clamp_height h height_)%num) 1 +
                       Z.of_nat k)))
        (seq 0 n).
Proof.
  intros Hh.
  destruct (column_loop_run x (clamp_height h height_) (Z.to_nat h) 0
              (sar (ToInt32 (of_Z h - clamp_height h height_)%num) 1) [])
    as (n & Hn & Hrun).
  exists n. split; [exact Hn|]. intros fuel Hfuel.
  rewrite column_points_fuel_enough by assumption. exact Hrun.
Qed.

Lemma column_points_run_witness :
  exists n, (n <= Z.to_nat 4)%nat /\
    forall fuel, (Z.to_nat 4 <= fuel)%nat ->
      column_points_fuel fuel 4 (of_Z 1) Infinity =
      map (fun k =>
             (of_Z 1,
              of_Z (sar (ToInt32 (of_Z 4 - clamp_height 4 Infinity)%num) 1 +
                    Z.of_nat k)))
        (seq 0 n).
Proof. apply (column_points_run 4 (of_Z 1) Infinity). lia. Defined.

Lemma column_points_none (h : Z) (x height_ : number) :
  0 <= h < 2 ^ 53 -> Num.lt pzero height_ = false ->
  column_points h x height_ = [].
Proof.
  intros Hh Hnot. unfold column_points, column_run.
  destruct (Z.to_nat h) as [|fuel] eqn:Hfuel; [reflexivity|].
  cbn [column_loop]. change (of_Z 0) with pzero.
  assert (Hclamp : Num.lt pzero (clamp_height h height_) = false).
  { unfold clamp_height, Num.gt.
    destruct (SFltb (of_Z h) height_) eqn:Hgt; [|exact Hnot].
    exfalso.
    destruct (of_Z_shape h ltac:(lia)) as [Hz|(s & m & e & Hs & _ & _ & Hsign)].
    - rewrite Hz in Hgt. unfold Num.lt, pzero in *. congruence.
    - assert (s = false) by (rewrite Hsign; apply Z.ltb_ge; lia).
      clear Hsign. subst s.
      rewrite Hs in Hgt.
      unfold Num.lt, pzero in Hnot.
      destruct height_ as [s'|s'| |s' m' e']; try destruct s';
        cbv [SFltb SFcompare] in Hnot, Hgt;
        first [ discriminate Hnot | discriminate Hgt ]. }
  now rewrite Hclamp.
Qed.

(** Property X15: a height that is not greater than zero (zero, a negative
    number, minus infinity or NaN) draws nothing: [column] returns the
    framebuffer unchanged. *)
Theorem column_nothing (fbuf : ImageData) (x height_ : number)
  (color : option Color) :
  0 <= height fbuf < 2 ^ 53 -> Num.lt pzero height_ = false ->
  column fbuf x height_ color = fbuf.
Proof.
  intros Hh Hnot. rewrite column_replay, column_points_none by assumption.
  reflexivity.
Qed.

Lemma column_nothing_witness :
  0 <= height frame4 < 2 ^ 53 /\ Num.lt pzero NaN = false /\
  column frame4 (of_Z 1) NaN None = frame4.
Proof.
  assert (Hh : 0 <= height frame4 < 2 ^ 53) by (cbn; lia).
  split; [exact Hh|]. split; [reflexivity|].
  exact (column_nothing frame4 (of_Z 1) NaN None Hh eq_refl).
Defined.

Lemma clamp_height_int (h k : Z) :
  0 <= k <= h -> h < 2 ^ 53 -> clamp_height h (of_Z k) = of_Z k.
Proof.
  intros Hk Hh. unfold clamp_height, Num.gt.
  destruct (Z.eq_dec k h) as [->|Hne].
  - now destruct (SFltb (of_Z h) (of_Z h)).
  - pose proof (of_Z_lt_mono k h ltac:(lia) Hh) as Hlt.
    apply lt_asym in Hlt. unfold Num.lt in Hlt. now rewrite Hlt.
Qed.

(** Property X16: a column of an integer height [k] that fits the
    framebuffer has exactly [k] pixels, and is centered: it leaves
    [(h - k) / 2] rows above it, rounded down. *)
Theorem column_centered (h k : Z) (x : number) :
  0 <= k <= h -> h < 2 ^ 31 ->
  column_points h x (of_Z k) =
  map (fun i => (x, of_Z ((h - k) / 2 + Z.of_nat i))) (seq 0 (Z.to_nat k)).
Proof.
  intros Hk Hh. unfold column_points, column_run.
  rewrite clamp_height_int, sub_of_Z, ToInt32_of_Z_int32 by lia.
  unfold sar. rewrite Z.shiftr_div_pow2 by lia. change (2 ^ 1) with 2.
  replace (Z.to_nat h) with (Z.to_nat k + Z.to_nat (h - k))%nat by lia.
  rewrite column_loop_stops
    by (rewrite Z.add_0_l, Z2Nat.id by lia; apply lt_irrefl).
  rewrite (column_loop_rows (Z.to_nat k) x k 0 ((h - k) / 2) []) by lia.
  reflexivity.
Qed.

Lemma column_centered_witness :
  column_points 8 (of_Z 3) (of_Z 4) =
  map (fun i => (of_Z 3, of_Z ((8 - 4) / 2 + Z.of_nat i))) (seq 0 4).
Proof. apply (column_centered 8 4 (of_Z 3)); lia. Defined.

(** Property X17: a column changes only the pixels of its run.  After
    [column], a channel value of the data is the channel of the color when
    its pixel is the pixel of one of the points of the run, and is the
    value from before the call otherwise. *)
Theorem column_writes_only_its_pixels (fbuf : ImageData) (x height_ : number)
  (color : option Color) (k : nat) :
  nth k (data (column fbuf x height_ color)) 0 =
  if plots_offset fbuf (column_points (height fbuf) x height_)
       (4 * (Z.of_nat k / 4)) &&
     (Z.of_nat k <? Z.of_nat (List.length (data fbuf)))
  then Uint8Clamp
         (channel (Z.to_nat (Z.of_nat k mod 4))
            (or_default ColorDefault color))
  else nth k (data fbuf) 0.
Proof. rewrite column_replay. apply replay_nth. Qed.

(** ** The shape of the framebuffer *)

Lemma bresenham_shape (fbuf : ImageData) (a b : Point) (color : Color) :
  same_shape fbuf (bresenham fbuf a b color).
Proof. rewrite bresenham_replay. apply replay_pixel_shape. Qed.

Lemma column_shape (fbuf : ImageData) (x height_ : number)
  (color : option Color) :
  same_shape fbuf (column fbuf x height_ color).
Proof. rewrite column_replay. apply replay_pixel_shape. Qed.

Lemma line_shape (Math_sin Math_cos : number -> number) (fbuf : ImageData)
  (point : Point) (args : LineArgs) :
  same_shape fbuf (line Math_sin Math_cos fbuf point args).
Proof. unfold line. destruct args; apply bresenham_shape. Qed.

Lemma perform_shape (Math_sin Math_cos : number -> number)
  (calls : list DrawCall) :
  forall fbuf,
    same_shape fbuf (fold_left (perform Math_sin Math_cos) calls fbuf).
Proof.
  induction calls as [|c calls IH]; intros fbuf; cbn [fold_left].
  - apply same_shape_refl.
  - eapply same_shape_trans; [|apply IH].
    destruct c; [apply column_shape|apply line_shape].
Qed.

(** Property X18: no drawing function resizes the framebuffer: [pixel],
    [column], [line] and [render] keep its width, its height and the
    length of its data, also when they are given points outside of it. *)
Theorem drawing_keeps_shape (Math_sin Math_cos Math_tan : number -> number)
  (ray : Position -> number -> number) (fbuf : ImageData) (p : Point)
  (x height_ : number) (color : option Color) (args : LineArgs)
  (pos : Position) (dir : number) :
  same_shape fbuf (pixel fbuf p color) /\
  same_shape fbuf (column fbuf x height_ color) /\
  same_shape fbuf (line Math_sin Math_cos fbuf p args) /\
  same_shape fbuf (render_with Math_sin Math_cos Math_tan ray fbuf pos dir).
Proof.
  repeat split; try apply pixel_shape; try apply column_shape;
    try apply line_shape.
  all: rewrite render_with_replay; apply perform_shape.
Qed.

(** ** Colors *)

Lemma hex_digit_value_spec (c : ascii) :
  is_hex_digit c = true ->
  hex_digit_value c = Some (hex_value c) /\ 0 <= hex_value c <= 15.
Proof.
  destruct c as [[] [] [] [] [] [] [] []]; intros H;
    try discriminate H; split; try reflexivity; vm_compute; split;
    discriminate.
Qed.

Lemma byte_of_rgb (v k : Z) :
  0 <= v < 2 ^ 24 -> k = 0 \/ k = 8 \/ k = 16 ->
  sar (bit_and (of_Z v) (of_Z (255 * 2 ^ k))) k = (v / 2 ^ k) mod 256.
Proof.
  intros Hv Hk. unfold sar, bit_and.
  rewrite ToInt32_of_Z_int32 by lia.
  assert (Hmask : ToInt32 (of_Z (255 * 2 ^ k)) = Z.shiftl (Z.ones 8) k).
  { destruct Hk as [->|[->| ->]]; reflexivity. }
  rewrite Hmask, Z.shiftr_land, Z.shiftr_shiftl_l, Z.sub_diag, Z.shiftl_0_r,
    Z.land_ones, Z.shiftr_div_pow2 by lia.
  reflexivity.
Qed.

(** Property X19: for a code made of '#' and six hexadecimal digits, in
    either case, [colorHex] returns the three bytes that the pairs of
    digits denote, red first, and the given alpha reduced to a byte (255
    when none is given). *)
Theorem colorHex_channels (c1 c2 c3 c4 c5 c6 : ascii) (a : option number) :
  forallb is_hex_digit [c1; c2; c3; c4; c5; c6] = true ->
  colorHex
    (String "#" (String c1 (String c2 (String c3 (String c4 (String c5
       (String c6 EmptyString))))))) a =
  inr (16 * hex_value c1 + hex_value c2,
       16 * hex_value c3 + hex_value c4,
       16 * hex_value c5 + hex_value c6,
       ToInt32 (or_default (of_Z 255) a) mod 256).
Proof.
  intros Hd. cbn [forallb] in Hd.
  repeat (apply andb_prop in Hd; destruct Hd as [? Hd]).
  destruct (hex_digit_value_spec c1) as [E1 R1]; [assumption|].
  destruct (hex_digit_value_spec c2) as [E2 R2]; [assumption|].
  destruct (hex_digit_value_spec c3) as [E3 R3]; [assumption|].
  destruct (hex_digit_value_spec c4) as [E4 R4]; [assumption|].
  destruct (hex_digit_value_spec c5) as [E5 R5]; [assumption|].
  destruct (hex_digit_value_spec c6) as [E6 R6]; [assumption|].
  unfold colorHex. rewrite hex_pattern_matches.
  unfold matches_rrggbb. cbn [forallb Ascii.eqb Bool.eqb].
  repeat match goal with H : is_hex_digit _ = true |- _ => rewrite H; clear H end.
  cbn [andb nth substring].
  unfold parseInt16. cbn [parse_hex_digits].
  rewrite E1, E2, E3, E4, E5, E6. cbn [or_default].
  set (v1 := hex_value c1) in *. set (v2 := hex_value c2) in *.
  set (v3 := hex_value c3) in *. set (v4 := hex_value c4) in *.
  set (v5 := hex_value c5) in *. set (v6 := hex_value c6) in *.
  clearbody v1 v2 v3 v4 v5 v6.
  remember (16 * (16 * (16 * (16 * (16 * (16 * 0 + v1) + v2) + v3) + v4) + v5) + v6)
    as v eqn:Hvdef.
  assert (Hv : 0 <= v < 2 ^ 24) by lia.
  change 16711680 with (255 * 2 ^ 16). change 65280 with (255 * 2 ^ 8).
  rewrite (byte_of_rgb v 16), (byte_of_rgb v 8) by (first [exact Hv | lia]).
  assert (Hb : bit_and (of_Z v) (of_Z 255) = (v / 2 ^ 0) mod 256).
  { rewrite <- (byte_of_rgb v 0) by (first [exact Hv | lia]). reflexivity. }
  rewrite Hb.
  assert (H16 : (v / 2 ^ 16) mod 256 = 16 * v1 + v2).
  { rewrite <- (Z.div_unique_pos v (2 ^ 16) (16 * v1 + v2)
               (16 * (16 * (16 * v3 + v4) + v5) + v6)) by lia.
    apply Z.mod_small. lia. }
  assert (H8 : (v / 2 ^ 8) mod 256 = 16 * v3 + v4).
  { rewrite <- (Z.div_unique_pos v (2 ^ 8) (256 * (16 * v1 + v2) + 16 * v3 + v4)
               (16 * v5 + v6)) by lia.
    replace (256 * (16 * v1 + v2) + 16 * v3 + v4)
      with (16 * v3 + v4 + (16 * v1 + v2) * 256) by ring.
    rewrite Z_mod_plus_full. apply Z.mod_small. lia. }
  assert (H0 : (v / 2 ^ 0) mod 256 = 16 * v5 + v6).
  { rewrite Z.pow_0_r, Z.div_1_r.
    replace v with (16 * v5 + v6 + (256 * (16 * v1 + v2) + 16 * v3 + v4) * 256)
      by lia.
    rewrite Z_mod_plus_full. apply Z.mod_small. lia. }
  rewrite H16, H8, H0.
  unfold colorRGBA. cbn [or_default]. rewrite !bit_and_255.
  rewrite !ToInt32_of_Z_int32, !Z.mod_small by lia.
  reflexivity.
Qed.

Lemma colorHex_channels_witness :
  forallb is_hex_digit ["F"; "f"; "8"; "0"; "0"; "a"]%char = true /\
  colorHex "#Ff800a" None = inr (255, 128, 10, 255).
Proof.
  split; [reflexivity|].
  exact (colorHex_channels "F" "f" "8" "0" "0" "a" None eq_refl).
Defined.

(** Property X20: [colorRGBA] is idempotent on its results: a color built
    by [colorRGBA], taken apart and built again, is the same color. *)
Theorem colorRGBA_round_trip (r g b : number) (a : option number) :
  colorRGBA (of_Z (channel 0 (colorRGBA r g b a)))
    (of_Z (channel 1 (colorRGBA r g b a)))
    (of_Z (channel 2 (colorRGBA r g b a)))
    (Some (of_Z (channel 3 (colorRGBA r g b a)))) =
  colorRGBA r g b a.
Proof.
  pose proof (colorRGBA_valid r g b a) as Hv.
  pose proof (Hv 0%nat) as H0. pose proof (Hv 1%nat) as H1.
  pose proof (Hv 2%nat) as H2. pose proof (Hv 3%nat) as H3.
  rewrite colorRGBA_in_range by assumption.
  destruct (colorRGBA r g b a) as [[[r' g'] b'] a']. reflexivity.
Qed.

(** Property X21: on integers that a number holds exactly, each channel of
    [colorRGBA] is the integer modulo 256; negative integers and integers
    above the 32-bit range included. *)
Theorem colorRGBA_integers (r g b a : Z) :
  - 2 ^ 53 < r < 2 ^ 53 -> - 2 ^ 53 < g < 2 ^ 53 ->
  - 2 ^ 53 < b < 2 ^ 53 -> - 2 ^ 53 < a < 2 ^ 53 ->
  colorRGBA (of_Z r) (of_Z g) (of_Z b) (Some (of_Z a)) =
  (r mod 256, g mod 256, b mod 256, a mod 256).
Proof.
  intros Hr Hg Hb Ha. unfold colorRGBA. cbn [or_default].
  rewrite !bit_and_255, !ToInt32_of_Z, !wrap32_mod_256 by assumption.
  reflexivity.
Qed.

Lemma colorRGBA_integers_witness :
  colorRGBA (of_Z 511) (of_Z (-2)) (of_Z (2 ^ 40 + 7)) (Some (of_Z 256)) =
  (255, 254, 7, 0).
Proof.
  apply (colorRGBA_integers 511 (-2) (2 ^ 40 + 7) 256); lia.
Defined.

(** ** The calls of the renderer *)


Lemma flat_map_singleton {A B : Type} (f : A -> B) (l : list A) :
  flat_map (fun a => [f a]) l = map f l.
Proof. induction l as [|a l IH]; cbn; [reflexivity|now rewrite IH]. Qed.




Lemma fold_left_perform_map (Math_sin Math_cos : number -> number)
  {A : Type} (call : A -> DrawCall) (l : list A) :
  forall f,
    fold_left (perform Math_sin Math_cos) (map call l) f =
    fold_left (fun f k => perform Math_sin Math_cos f (call k)) l f.
Proof.
  induction l as [|k l IH]; intros f; [reflexivity|].
  cbn [map fold_left]. apply IH.
Qed.

(** Property X23: what [render] draws with the ray caster of the
    repository: no wall at all, and a fan of [fbuf.width] debug lines of
    length 100 from the point (100, 100), one per ray angle; the
    framebuffer returned is the one these calls of [line] leave. *)
Theorem render_debug_fan (Math_sin Math_cos Math_tan : number -> number)
  (fbuf : ImageData) (pos : Position) (dir : number) :
  render_calls Math_cos Math_tan (cast Math_sin Math_cos)
    (width fbuf) (height fbuf) pos dir =
    map (fun k =>
           DrawLine (of_Z 100, of_Z 100)
             (angle_after k (width fbuf) (first_angle dir)) (of_Z 100)
             (170, 170, 255, 255))
      (seq 0 (Z.to_nat (width fbuf))) /\
  render Math_sin Math_cos Math_tan fbuf pos dir =
    fold_left
      (fun f k =>
         line Math_sin Math_cos f (of_Z 100, of_Z 100)
           (AngleLength (angle_after k (width fbuf) (first_angle dir))
              (of_Z 100) (Some (170, 170, 255, 255))))
      (seq 0 (Z.to_nat (width fbuf))) fbuf.
Proof.
  assert (Hcalls :
    render_calls Math_cos Math_tan (cast Math_sin Math_cos)
      (width fbuf) (height fbuf) pos dir =
    map (fun k =>
           DrawLine (of_Z 100, of_Z 100)
             (angle_after k (width fbuf) (first_angle dir)) (of_Z 100)
             (170, 170, 255, 255))
      (seq 0 (Z.to_nat (width fbuf)))).
  { rewrite render_calls_iterations, <- flat_map_singleton.
    apply flat_map_ext. intros k. reflexivity. }
  split; [exact Hcalls|].
  unfold render. rewrite render_with_replay, Hcalls.
  apply fold_left_perform_map.
Qed.

(** ** A corrected distance of zero *)





(** ** The debug overlay on the framebuffer *)










